(** * Sloth verifiable delay function: a shallow embedding of the Go code

    The Go package works on [*big.Int] values: every arithmetic method
    [z.Op(x, y)] reads its operands, overwrites the receiver [z] and returns
    the receiver.  Which cell is overwritten matters for what the code
    computes, so the big integers live in an explicit store and every
    function of the package is written in a state-and-failure monad over it,
    statement by statement as in the source. *)

From Stdlib Require Import ZArith Lia Zmod.
From Stdlib.Strings Require Import Byte String.
From stdpp Require Import base list option.

Local Open Scope Z_scope.

(** ** The store of big integers and its monad *)

Abbreviation ptr := nat (only parsing).
Abbreviation heap := (list Z) (only parsing).

(** A computation takes the store and either panics ([None]) or returns a
    value and the new store. *)
Definition M (A : Type) : Type := heap -> option (A * heap).

Definition ret {A} (a : A) : M A := fun h => Some (a, h).

Definition bind {A B} (m : M A) (k : A -> M B) : M B :=
  fun h => match m h with
           | Some (a, h') => k a h'
           | None => None
           end.

Definition panic {A} : M A := fun _ => None.

Notation "x <- m ;; k" := (bind m (fun x => k))
  (at level 100, m at level 99, k at level 200, right associativity).
Notation "m ;;; k" := (bind m (fun _ => k))
  (at level 100, k at level 200, right associativity).

Definition alloc (v : Z) : M ptr :=
  fun h => Some (length h, h ++ [v]).

Definition load (x : ptr) : M Z :=
  fun h => match h !! x with
           | Some v => Some (v, h)
           | None => None
           end.

Definition store (z : ptr) (v : Z) : M ptr :=
  fun h => match h !! z with
           | Some _ => Some (z, <[z:=v]> h)
           | None => None
           end.

(** ** The part of Go's [math/big] the package calls

    Each method is modelled by its documented meaning.  [Mod] and [Div] are
    Go's Euclidean modulus and division; a zero divisor panics. *)

Definition new : M ptr := alloc 0.

Definition NewInt (v : Z) : M ptr := alloc v.

Definition Int_Set (z x : ptr) : M ptr :=
  vx <- load x;; store z vx.

Definition Int_Neg (z x : ptr) : M ptr :=
  vx <- load x;; store z (- vx).

Definition Int_Add (z x y : ptr) : M ptr :=
  vx <- load x;; vy <- load y;; store z (vx + vy).

Definition Int_Sub (z x y : ptr) : M ptr :=
  vx <- load x;; vy <- load y;; store z (vx - vy).

Definition Int_Mod (z x y : ptr) : M ptr :=
  vx <- load x;; vy <- load y;;
  if vy =? 0 then panic else store z (vx mod Z.abs vy).

Definition Int_Div (z x y : ptr) : M ptr :=
  vx <- load x;; vy <- load y;;
  if vy =? 0 then panic else store z (Z.sgn vy * (vx / Z.abs vy)).

(** [z.Exp(x, y, m)]: [x^y mod |m|], or [x^y] when [m] is zero ([1] for
    [y <= 0]).  A negative exponent with a non-zero modulus asks for a
    modular inverse; the package never does that and the model stops there. *)
Definition Int_Exp (z x y m : ptr) : M ptr :=
  vx <- load x;; vy <- load y;; vm <- load m;;
  if vm =? 0 then store z (if vy <=? 0 then 1 else vx ^ vy)
  else if vy <? 0 then panic
  else store z ((vx ^ vy) mod Z.abs vm).

Definition Int_Cmp (x y : ptr) : M Z :=
  vx <- load x;; vy <- load y;;
  ret (match vx ?= vy with Lt => -1 | Eq => 0 | Gt => 1 end).

Definition Int_Sign (x : ptr) : M Z :=
  vx <- load x;; ret (Z.sgn vx).

(** [x.Bit(i)] is the i-th bit of [x], two's complement for negative [x]. *)
Definition Int_Bit (x : ptr) (i : Z) : M Z :=
  vx <- load x;; ret (Z.b2z (Z.testbit vx i)).

(** [big.Jacobi(x, y)]: the binary algorithm of the library.  The loop's
    second operand strictly decreases, so [|y|] rounds of fuel are enough
    ([jacobi_loop_total] below). *)
Fixpoint trailingZeroBits (p : positive) : Z :=
  match p with
  | xO q => 1 + trailingZeroBits q
  | _ => 0
  end.

Fixpoint jacobi_loop (fuel : nat) (a b j : Z) : option Z :=
  match fuel with
  | O => None
  | S fuel' =>
      if b =? 1 then Some j
      else if a =? 0 then Some 0
      else
        let a := a mod b in
        match a with
        | Zpos pa =>
            let s := trailingZeroBits pa in
            let j := if Z.odd s && ((Z.land b 7 =? 3) || (Z.land b 7 =? 5))
                     then - j else j in
            let c := Z.shiftr a s in
            let j := if (Z.land b 3 =? 3) && (Z.land c 3 =? 3)
                     then - j else j in
            jacobi_loop fuel' b c j
        | _ => Some 0
        end
  end.

Definition jacobi (x y : Z) : option Z :=
  let j := if (y <? 0) && (x <? 0) then -1 else 1 in
  jacobi_loop (S (Z.to_nat (Z.abs y))) x (Z.abs y) j.

Definition Jacobi (x y : ptr) : M Z :=
  vx <- load x;; vy <- load y;;
  if Z.even vy then panic
  else match jacobi vx vy with
       | Some j => ret j
       | None => panic
       end.

(** ** The package's global constants

    [bigZero .. bigThree] are allocated once, in the order of the [var]
    block, and never written afterwards. *)

Definition bigZero : ptr := 0%nat.
Definition bigOne : ptr := 1%nat.
Definition bigTwo : ptr := 2%nat.
Definition bigFour : ptr := 3%nat.
Definition bigThree : ptr := 4%nat.

Definition globals : heap := [0; 1; 2; 4; 3].

(** ** Byte slices

    A Go [[]byte] is [nil] or a sequence of bytes; [Verify] tells the two
    apart, every other use reads the contents only. *)

Abbreviation slice := (option (list byte)) (only parsing).

Definition slice_data (b : slice) : list byte :=
  match b with
  | Some l => l
  | None => []
  end.

(** [append(b, d...)]: appending nothing to [nil] is still [nil]. *)
Definition slice_append (b : slice) (d : list byte) : slice :=
  match b, d with
  | None, [] => None
  | _, _ => Some (slice_data b ++ d)
  end.

Fixpoint list_byte_eqb (a b : list byte) : bool :=
  match a, b with
  | [], [] => true
  | x :: a', y :: b' => Byte.eqb x y && list_byte_eqb a' b'
  | _, _ => false
  end.

Definition bytes_Equal (a b : slice) : bool :=
  list_byte_eqb (slice_data a) (slice_data b).

Definition byte_to_Z (b : byte) : Z := Z.of_N (Byte.to_N b).

Definition byte_of_Z (v : Z) : byte :=
  match Byte.of_N (Z.to_N (v mod 256)) with
  | Some b => b
  | None => x00
  end.

(** [z.SetBytes(buf)]: [buf] read as a big-endian unsigned integer. *)
Definition be_to_Z (l : list byte) : Z :=
  fold_left (fun acc b => acc * 256 + byte_to_Z b) l 0.

Definition Int_SetBytes (z : ptr) (buf : slice) : M ptr :=
  store z (be_to_Z (slice_data buf)).

(** [x.Bytes()]: the absolute value of [x] as big-endian bytes, without
    leading zeros (empty for zero). *)
Fixpoint be_of_Z (fuel : nat) (v : Z) (acc : list byte) : list byte :=
  match fuel with
  | O => acc
  | S fuel' =>
      if v =? 0 then acc
      else be_of_Z fuel' (v / 256) (byte_of_Z v :: acc)
  end.

Definition Int_Bytes (x : ptr) : M slice :=
  vx <- load x;;
  ret (Some (be_of_Z (S (Z.to_nat (Z.log2 (Z.abs vx)))) (Z.abs vx) [])).

(** [x.ProbablyPrime(n)]: the library's test is exact below 2^64 and wrong
    above only with negligible probability; it is modelled as the exact
    test, by trial division. *)
Fixpoint no_divisor_from (fuel : nat) (d n : Z) : bool :=
  match fuel with
  | O => true
  | S fuel' =>
      if n <=? d then true
      else if n mod d =? 0 then false
      else no_divisor_from fuel' (d + 1) n
  end.

Definition is_prime (n : Z) : bool :=
  (2 <=? n) && no_divisor_from (Z.to_nat n) 2 n.

Definition Int_ProbablyPrime (x : ptr) (n : Z) : M bool :=
  vx <- load x;; ret (is_prime vx).

(** [x.BitLen()]: the length of [|x|] in bits, 0 for 0. *)
Definition BitLen (v : Z) : Z :=
  if v =? 0 then 0 else Z.log2 (Z.abs v) + 1.

(** ** The hash capability

    [hash.Hash] as the package uses it: bytes are written to a buffer,
    [Sum] appends the digest of the buffer to its argument and leaves the
    buffer alone, [Reset] empties the buffer. *)

Record Hash := mkHash {
  digest : list byte -> list byte;
  written : list byte
}.

Definition Hash_Write (hs : Hash) (b : slice) : Hash :=
  mkHash (digest hs) (written hs ++ slice_data b).

Definition Hash_Sum (hs : Hash) (b : slice) : slice :=
  slice_append b (digest hs (written hs)).

Definition Hash_Reset (hs : Hash) : Hash :=
  mkHash (digest hs) [].

(** ** SHA-256, the default hash ([crypto/sha256], FIPS 180-4) *)

Module SHA256.

Definition w32 (x : Z) : Z := x mod 2 ^ 32.
Definition add32 (x y : Z) : Z := w32 (x + y).
Definition rotr (n x : Z) : Z :=
  Z.lor (Z.shiftr x n) (w32 (Z.shiftl x (32 - n))).
Definition Ch (x y z : Z) : Z :=
  Z.lxor (Z.land x y) (Z.land (Z.lxor x 0xffffffff) z).
Definition Maj (x y z : Z) : Z :=
  Z.lxor (Z.lxor (Z.land x y) (Z.land x z)) (Z.land y z).
Definition bsig0 (x : Z) : Z :=
  Z.lxor (Z.lxor (rotr 2 x) (rotr 13 x)) (rotr 22 x).
Definition bsig1 (x : Z) : Z :=
  Z.lxor (Z.lxor (rotr 6 x) (rotr 11 x)) (rotr 25 x).
Definition ssig0 (x : Z) : Z :=
  Z.lxor (Z.lxor (rotr 7 x) (rotr 18 x)) (Z.shiftr x 3).
Definition ssig1 (x : Z) : Z :=
  Z.lxor (Z.lxor (rotr 17 x) (rotr 19 x)) (Z.shiftr x 10).

(** The round constants are the first 32 bits of the fractional parts of
    the cube roots of the first 64 primes, the initial state those of the
    square roots of the first 8. *)
Fixpoint iroot (bits : nat) (e n r : Z) : Z :=
  match bits with
  | O => r
  | S b =>
      let r' := r + 2 ^ Z.of_nat b in
      iroot b e n (if r' ^ e <=? n then r' else r)
  end.

Definition frac32 (e p : Z) : Z :=
  iroot 36 e (p * 2 ^ (32 * e)) 0 mod 2 ^ 32.

Definition first_primes (n : nat) : list Z :=
  take n (filter (fun q => is_prime q = true) (map Z.of_nat (seq 2 310))).

Definition K : list Z := Eval vm_compute in map (frac32 3) (first_primes 64).

Definition H0 : list Z := Eval vm_compute in map (frac32 2) (first_primes 8).

(** The message, padded to a multiple of 64 bytes. *)
Definition pad (msg : list byte) : list Z :=
  let l := Z.of_nat (length msg) in
  let zeros := Z.to_nat ((55 - l) mod 64) in
  map byte_to_Z msg ++ [0x80] ++ repeat 0 zeros
    ++ map (fun i => Z.shiftr (8 * l) (8 * (7 - Z.of_nat i)) mod 256) (seq 0 8).

Fixpoint words (fuel : nat) (l : list Z) : list Z :=
  match fuel, l with
  | S fuel', a :: b :: c :: d :: l' =>
      (((a * 256 + b) * 256 + c) * 256 + d) :: words fuel' l'
  | _, _ => []
  end.

(** The schedule is grown with the latest word in front. *)
Fixpoint schedule (n : nat) (ws : list Z) : list Z :=
  match n with
  | O => ws
  | S n' =>
      let w := add32 (add32 (ssig1 (nth 1 ws 0)) (nth 6 ws 0))
                     (add32 (ssig0 (nth 14 ws 0)) (nth 15 ws 0)) in
      schedule n' (w :: ws)
  end.

Definition round (st : list Z) (kw : Z * Z) : list Z :=
  match st with
  | [a; b; c; d; e; f; g; h] =>
      let t1 := add32 (add32 (add32 h (bsig1 e)) (add32 (Ch e f g) (fst kw)))
                      (snd kw) in
      let t2 := add32 (bsig0 a) (Maj a b c) in
      [add32 t1 t2; a; b; c; add32 d t1; e; f; g]
  | _ => st
  end.

Definition compress (st : list Z) (block : list Z) : list Z :=
  let ws := rev (schedule 48 (rev block)) in
  let st' := fold_left round (combine K ws) st in
  map (fun xy => add32 (fst xy) (snd xy)) (combine st st').

Fixpoint blocks (fuel : nat) (st : list Z) (ws : list Z) : list Z :=
  match fuel with
  | O => st
  | S fuel' =>
      match ws with
      | [] => st
      | _ => blocks fuel' (compress st (take 16 ws)) (drop 16 ws)
      end
  end.

Definition word_bytes (w : Z) : list byte :=
  [byte_of_Z (Z.shiftr w 24); byte_of_Z (Z.shiftr w 16);
   byte_of_Z (Z.shiftr w 8); byte_of_Z w].

Definition sum256 (msg : list byte) : list byte :=
  let p := pad msg in
  let ws := words (length p) p in
  concat (map word_bytes (blocks (length ws) H0 ws)).

(** [sha256.New]. *)
Definition New (_ : unit) : Hash := mkHash sum256 [].

End SHA256.

(** ** The Sloth instance *)

Record Sloth := mkSloth {
  P : ptr;
  Iterations : Z;
  HashFunc : unit -> Hash;
  sqrtExp : ptr
}.

(** [sigma]: the neighbour swap. *)
Definition sigma (s : Sloth) (x : ptr) : M ptr :=
  res <- new;;
  b <- Int_Bit x 0;;
  (if b =? 0 then Int_Sub res x bigOne else Int_Add res x bigOne);;;
  Int_Mod res res (P s).

Definition sigmaInverse (s : Sloth) (x : ptr) : M ptr :=
  sigma s x.

(** [rho]: the square root with the even lift. *)
Definition rho (s : Sloth) (x : ptr) : M ptr :=
  valToRoot <- new;;
  j <- Jacobi x (P s);;
  (if j =? 1 then Int_Set valToRoot x
   else t <- Int_Neg valToRoot x;; Int_Mod t valToRoot (P s));;;
  r <- new;;
  root <- Int_Exp r valToRoot (sqrtExp s) (P s);;
  b <- Int_Bit root 0;;
  if b =? 0 then ret root
  else r' <- new;; Int_Sub r' (P s) root.

(** [rhoInverse].  In the odd branch the source writes
    [new(big.Int).Neg(ySquared).Mod(ySquared, s.P)]: the fresh integer
    receives [-ySquared] and is then the receiver of [Mod], whose operands
    are [ySquared] and [s.P]. *)
Definition rhoInverse (s : Sloth) (y : ptr) : M ptr :=
  e <- new;;
  ySquared <- Int_Exp e y bigTwo (P s);;
  b <- Int_Bit y 0;;
  if b =? 0 then ret ySquared
  else n <- new;; t <- Int_Neg n ySquared;; Int_Mod t ySquared (P s).

Definition Tau (s : Sloth) (x : ptr) : M ptr :=
  y <- sigma s x;; rho s y.

Definition TauInverse (s : Sloth) (y : ptr) : M ptr :=
  x <- rhoInverse s y;; sigmaInverse s x.

(** ** Errors *)

Abbreviation error := string (only parsing).

Definition errors_New (msg : string) : error := msg.

(** [fmt.Errorf] with a format that has no verb. *)
Definition fmt_Errorf (msg : string) : error := msg.

(** [fmt.Errorf] with a format that ends in the verb [%w]. *)
Definition fmt_Errorf_w (msg : string) (err : error) : error :=
  (msg ++ err)%string.

(** ** Construction *)

Definition New (p : ptr) (iterations : Z) : M (option Sloth * option error) :=
  if iterations <=? 0 then
    ret (None, Some (errors_New "iterations must be positive"))
  else
    pr <- Int_ProbablyPrime p 20;;
    if negb pr then
      ret (None, Some (errors_New "p is not a prime number"))
    else
      t <- new;; m <- Int_Mod t p bigFour;;
      c <- Int_Cmp m bigThree;;
      if negb (c =? 0) then
        ret (None, Some (errors_New "p must be congruent to 3 (mod 4)"))
      else
        t' <- new;; sqrtExp <- Int_Add t' p bigOne;;
        Int_Div sqrtExp sqrtExp bigFour;;;
        ret (Some (mkSloth p iterations SHA256.New sqrtExp), None).

(** ** Compute and Verify

    A [for] loop that runs [s.Iterations] times and reassigns the
    accumulator on every round.  [Compute] and [Verify] call the steps as
    [s.tau] and [s.tauInverse]; the package defines them as [Tau] and
    [TauInverse]. *)
Fixpoint iterate (n : nat) (f : ptr -> M ptr) (w : ptr) : M ptr :=
  match n with
  | O => ret w
  | S n' => w' <- f w;; iterate n' f w'
  end.

Definition Compute (s : Sloth) (input : slice)
  : M (slice * ptr * option error) :=
  let hasher := HashFunc s tt in
  let hasher := Hash_Write hasher input in
  let uBytes := Hash_Sum hasher None in
  t <- new;; w <- Int_SetBytes t uBytes;;
  Int_Mod w w (P s);;;
  w <- iterate (Z.to_nat (Iterations s)) (Tau s) w;;
  t' <- new;; witness <- Int_Set t' w;;
  let hasher := Hash_Reset hasher in
  wb <- Int_Bytes witness;;
  let hasher := Hash_Write hasher wb in
  let hash := Hash_Sum hasher None in
  ret (hash, witness, None).

Definition Verify (s : Sloth) (input hash : slice) (witness : option ptr)
  : M (bool * option error) :=
  match input, hash, witness with
  | None, _, _ => ret (false, Some (errors_New "input cannot be nil"))
  | _, None, _ => ret (false, Some (errors_New "hash cannot be nil"))
  | _, _, None => ret (false, Some (errors_New "witness cannot be nil"))
  | Some _, Some _, Some witness =>
      c <- Int_Cmp witness (P s);;
      sg <- (if 0 <=? c then ret 0 else Int_Sign witness);;
      if (0 <=? c) || (sg <? 0) then
        ret (false, Some (fmt_Errorf "witness must be in the range [0, p-1]"))
      else
        let hasher := HashFunc s tt in
        wb <- Int_Bytes witness;;
        let hasher := Hash_Write hasher wb in
        let expectedHash := Hash_Sum hasher None in
        if negb (bytes_Equal hash expectedHash) then
          ret (false,
               Some (errors_New "hash of witness does not match provided hash"))
        else
          t <- new;; wCheck <- Int_Set t witness;;
          wCheck <- iterate (Z.to_nat (Iterations s)) (TauInverse s) wCheck;;
          let hasher := Hash_Reset hasher in
          let hasher := Hash_Write hasher input in
          let uBytes := Hash_Sum hasher None in
          t' <- new;; wStartExpected <- Int_SetBytes t' uBytes;;
          Int_Mod wStartExpected wStartExpected (P s);;;
          c' <- Int_Cmp wCheck wStartExpected;;
          if c' =? 0 then ret (true, None)
          else
            ret (false,
                 Some (errors_New
                   "verification failed: reversed witness does not match initial value"))
  end.

(** ** The prime generator

    [rand.Prime(rand.Reader, bits)] is the external capability: it consumes
    the state of the random source and hands back a fresh integer or an
    error.  The [for] loop has no bound; the model runs it for at most
    [fuel] rounds and answers [None] when they are used up. *)

Section Generator.

Variable rng : Type.
Variable rand_Prime : rng -> Z -> (Z + string) * rng.

Fixpoint GenerateSlothPrime (fuel : nat) (bits : Z) (r : rng)
  : M (option ((option ptr * option error) * rng)) :=
  match fuel with
  | O => ret None
  | S fuel' =>
      match rand_Prime r bits with
      | (inr err, r') =>
          ret (Some ((None,
                      Some (fmt_Errorf_w "failed to generate candidate prime: "
                                         err)), r'))
      | (inl v, r') =>
          prime <- NewInt v;;
          t <- new;; m <- Int_Mod t prime bigFour;;
          c <- Int_Cmp m bigThree;;
          if c =? 0 then ret (Some ((Some prime, None), r'))
          else GenerateSlothPrime fuel' bits r'
      end
  end.

(** The state of the random source after [n] draws, and whether the loop
    stops at the next draw: on an error, or on a value that is 3 modulo 4. *)
Fixpoint draws (n : nat) (bits : Z) (r : rng) : rng :=
  match n with
  | O => r
  | S n' => draws n' bits (snd (rand_Prime r bits))
  end.

Definition stops (bits : Z) (r : rng) : bool :=
  match fst (rand_Prime r bits) with
  | inl v => v mod 4 =? 3
  | inr _ => true
  end.

End Generator.

(** Reading the value a computation returns a pointer to. *)
Definition value_of (m : M ptr) (h : heap) : option Z :=
  match m h with
  | Some (r, h') => h' !! r
  | None => None
  end.

(** Running a computation for its result only. *)
Definition result_of {A} (m : M A) (h : heap) : option A :=
  match m h with
  | Some (a, _) => Some a
  | None => None
  end.

(** ** What the steps compute, as functions on values

    These are read off the code above; [sigma_spec], [rho_spec] and
    [rhoInverse_spec] below prove that the code computes them. *)

Definition sigma_val (p x : Z) : Z :=
  (if Z.testbit x 0 then x + 1 else x - 1) mod Z.abs p.

Definition jacobi_val (x p : Z) : Z :=
  match jacobi x p with
  | Some j => j
  | None => 0
  end.

Definition root_val (p x : Z) : Z :=
  ((if jacobi_val x p =? 1 then x else (- x) mod Z.abs p) ^ ((p + 1) / 4))
    mod Z.abs p.

Definition rho_val (p x : Z) : Z :=
  let root := root_val p x in
  if Z.testbit root 0 then p - root else root.

Definition rhoInverse_val (p y : Z) : Z := (y ^ 2) mod Z.abs p.

Definition Tau_val (p x : Z) : Z := rho_val p (sigma_val p x).

Definition TauInverse_val (p y : Z) : Z := sigma_val p (rhoInverse_val p y).

(** The loop of [Compute] and [Verify] on values. *)
Fixpoint iter_val (n : nat) (f : Z -> Z) (w : Z) : Z :=
  match n with
  | O => w
  | S n' => iter_val n' f (f w)
  end.

Definition Bytes_val (v : Z) : list byte :=
  be_of_Z (S (Z.to_nat (Z.log2 (Z.abs v)))) (Z.abs v) [].

(** [w0]: the hash of the input as an integer, reduced modulo [p]. *)
Definition w0_val (s : Sloth) (p : Z) (input : slice) : Z :=
  be_to_Z (slice_data (Hash_Sum (Hash_Write (HashFunc s tt) input) None))
    mod Z.abs p.

Definition witness_val (s : Sloth) (p : Z) (input : slice) : Z :=
  iter_val (Z.to_nat (Iterations s)) (Tau_val p) (w0_val s p input).

(** The digest [Compute] publishes for a witness of value [v]. *)
Definition digest_val (s : Sloth) (input : slice) (v : Z) : slice :=
  Hash_Sum (Hash_Write (Hash_Reset (Hash_Write (HashFunc s tt) input))
                       (Some (Bytes_val v))) None.

(** The digest [Verify] recomputes from a witness of value [v]. *)
Definition expected_digest (s : Sloth) (v : Z) : slice :=
  Hash_Sum (Hash_Write (HashFunc s tt) (Some (Bytes_val v))) None.

(** [s] was returned by [New], called in a store that holds the globals,
    and [h] is that store after [New] or any later one: stores only grow,
    the package never writes to a cell it did not allocate in the same
    call. *)
Definition constructed (s : Sloth) (h : heap) : Prop :=
  exists (pp : ptr) (it : Z) (h0 h1 : heap),
    globals `prefix_of` h0 /\
    New pp it h0 = Some ((Some s, None), h1) /\
    h1 `prefix_of` h.

(** ** A small instance to run the code on

    [New(7, 1)] in a store that holds the globals and the integer 7: the
    modulus is at cell 5, [New] leaves [7 mod 4] at cell 6 and the
    square-root exponent [(7 + 1) / 4 = 2] at cell 7. *)

Definition demo_sloth : Sloth := mkSloth 5%nat 1 SHA256.New 7%nat.

Definition demo_heap : heap := globals ++ [7; 3; 2].

(** Builds the modulus [p], calls [New] and runs [k] on the instance. *)
Definition with_New {A} (p it : Z) (k : Sloth -> M A) : M A :=
  pp <- NewInt p;;
  r <- New pp it;;
  match r with
  | (Some s, _) => k s
  | (None, _) => panic
  end.

(** A random source for examples: it first draws 13, then 11 for ever. *)
Definition demo_rand_Prime (r : bool) (bits : Z) : (Z + string) * bool :=
  if r then (inl 13, false) else (inl 11, false).

(** A computation that allocates at least [n] cells whenever it returns. *)
Definition grows {A} (m : M A) (n : nat) : Prop :=
  forall h a h', m h = Some (a, h') -> (length h + n <= length h')%nat.

(** What [Verify] answers, from the values of its arguments: [witness] is
    the value the witness pointer leads to, or [None] for a nil pointer.
    [Verify_refines] below proves that the code computes it. *)
Definition Verify_val (s : Sloth) (p : Z) (input hash : slice)
    (witness : option Z) : bool * option error :=
  match input, hash, witness with
  | None, _, _ => (false, Some "input cannot be nil"%string)
  | _, None, _ => (false, Some "hash cannot be nil"%string)
  | _, _, None => (false, Some "witness cannot be nil"%string)
  | Some _, Some _, Some v =>
      if (p <=? v) || (v <? 0) then
        (false, Some "witness must be in the range [0, p-1]"%string)
      else if negb (bytes_Equal hash (expected_digest s v)) then
        (false, Some "hash of witness does not match provided hash"%string)
      else if iter_val (Z.to_nat (Iterations s)) (TauInverse_val p) v
              =? w0_val s p input then
        (true, None)
      else
        (false,
         Some "verification failed: reversed witness does not match initial value"%string)
  end.

(** [Compute] followed by [Verify] on what it returned, as the package's
    driver and tests call them. *)
Definition Compute_then_Verify (s : Sloth) (input : slice)
  : M (Z * (bool * option error)) :=
  c <- Compute s input;;
  let '(hash, witness, _) := c in
  vw <- load witness;;
  v <- Verify s input hash (Some witness);;
  ret (vw, v).

(** [GenerateSlothPrime] followed by [New] on the prime it returned. *)
Definition Generate_then_New (rng : Type)
    (rand_Prime : rng -> Z -> (Z + string) * rng)
    (fuel : nat) (bits : Z) (r : rng) (iterations : Z)
  : M (option (option Sloth * option error)) :=
  g <- GenerateSlothPrime rng rand_Prime fuel bits r;;
  match g with
  | Some ((Some prime, None), _) => n <- New prime iterations;; ret (Some n)
  | _ => ret None
  end.

(** A random source for examples that fails on its second draw. *)
Definition demo_rand_failing (r : bool) (bits : Z) : (Z + string) * bool :=
  if r then (inl 13, false) else (inr "no entropy"%string, false).

(** ** A small program logic for the store monad *)

Definition wp {A} (m : M A) (h : heap) (Q : A -> heap -> Prop) : Prop :=
  match m h with
  | Some (a, h') => Q a h'
  | None => False
  end.

(** The instance's integers and the globals are in the store. *)
Definition ready (s : Sloth) (p : Z) (h : heap) : Prop :=
  globals `prefix_of` h /\
  h !! P s = Some p /\
  h !! sqrtExp s = Some ((p + 1) / 4).

(** The postcondition of a step: nothing allocated before is changed and
    the result points to [v]. *)
Definition points_to (h : heap) (v : Z) (r : ptr) (h' : heap) : Prop :=
  h `prefix_of` h' /\ h' !! r = Some v.

Lemma wp_ret {A} (a : A) h Q : Q a h -> wp (ret a) h Q.
Proof. intros HQ. exact HQ. Qed.

Lemma wp_bind {A B} (m : M A) (k : A -> M B) h Q :
  wp m h (fun a h' => wp (k a) h' Q) -> wp (bind m k) h Q.
Proof.
  unfold wp, bind. destruct (m h) as [[a h']|]; [|contradiction].
  intros Hk. exact Hk.
Qed.

Lemma wp_mono {A} (m : M A) h (Q Q' : A -> heap -> Prop) :
  wp m h Q -> (forall a h', Q a h' -> Q' a h') -> wp m h Q'.
Proof.
  unfold wp. destruct (m h) as [[a h']|]; [|contradiction].
  intros HQ Himp. apply Himp, HQ.
Qed.

Lemma wp_run {A} (m : M A) h Q :
  wp m h Q -> exists a h', m h = Some (a, h') /\ Q a h'.
Proof.
  unfold wp. destruct (m h) as [[a h']|]; [|contradiction].
  intros HQ. exists a, h'. split; [reflexivity | exact HQ].
Qed.

Lemma run_wp {A} (m : M A) h a h' (Q : A -> heap -> Prop) :
  m h = Some (a, h') -> Q a h' -> wp m h Q.
Proof. intros Hm HQ. unfold wp. rewrite Hm. exact HQ. Qed.

Lemma wp_new h Q : Q (length h) (h ++ [0]) -> wp new h Q.
Proof. intros HQ. exact HQ. Qed.

Lemma wp_NewInt v h Q : Q (length h) (h ++ [v]) -> wp (NewInt v) h Q.
Proof. intros HQ. exact HQ. Qed.

Lemma wp_load x h v Q : h !! x = Some v -> Q v h -> wp (load x) h Q.
Proof. intros Hx HQ. unfold wp, load. rewrite Hx. exact HQ. Qed.

Lemma lookup_last (h : heap) v : (h ++ [v]) !! length h = Some v.
Proof. apply list_lookup_middle. reflexivity. Qed.

Lemma insert_last (h : heap) u v : <[length h := v]> (h ++ [u]) = h ++ [v].
Proof.
  replace (length h) with (length h + 0)%nat by lia.
  rewrite insert_app_r. reflexivity.
Qed.

(** Writing to the cell allocated last. *)
Lemma wp_store_last h u v Q :
  Q (length h) (h ++ [v]) -> wp (store (length h) v) (h ++ [u]) Q.
Proof.
  intros HQ. unfold wp, store. rewrite lookup_last, insert_last. exact HQ.
Qed.

Ltac heap_lookup :=
  solve [ apply lookup_last
        | apply lookup_app_l_Some; heap_lookup
        | eassumption
        | eapply prefix_lookup_Some; [ | eassumption ]; reflexivity ].

Section LastCell.

Variables (h : heap) (u : Z) (Q : ptr -> heap -> Prop).

Lemma wp_Int_Set_last x vx :
  (h ++ [u]) !! x = Some vx ->
  Q (length h) (h ++ [vx]) -> wp (Int_Set (length h) x) (h ++ [u]) Q.
Proof.
  intros Hx HQ. apply wp_bind, (wp_load _ _ vx); [exact Hx|].
  apply wp_store_last, HQ.
Qed.

Lemma wp_Int_Neg_last x vx :
  (h ++ [u]) !! x = Some vx ->
  Q (length h) (h ++ [- vx]) -> wp (Int_Neg (length h) x) (h ++ [u]) Q.
Proof.
  intros Hx HQ. apply wp_bind, (wp_load _ _ vx); [exact Hx|].
  apply wp_store_last, HQ.
Qed.

Lemma wp_Int_Add_last x y vx vy :
  (h ++ [u]) !! x = Some vx -> (h ++ [u]) !! y = Some vy ->
  Q (length h) (h ++ [vx + vy]) -> wp (Int_Add (length h) x y) (h ++ [u]) Q.
Proof.
  intros Hx Hy HQ. apply wp_bind, (wp_load _ _ vx); [exact Hx|].
  apply wp_bind, (wp_load _ _ vy); [exact Hy|].
  apply wp_store_last, HQ.
Qed.

Lemma wp_Int_Sub_last x y vx vy :
  (h ++ [u]) !! x = Some vx -> (h ++ [u]) !! y = Some vy ->
  Q (length h) (h ++ [vx - vy]) -> wp (Int_Sub (length h) x y) (h ++ [u]) Q.
Proof.
  intros Hx Hy HQ. apply wp_bind, (wp_load _ _ vx); [exact Hx|].
  apply wp_bind, (wp_load _ _ vy); [exact Hy|].
  apply wp_store_last, HQ.
Qed.

Lemma wp_Int_Mod_last x y vx vy :
  (h ++ [u]) !! x = Some vx -> (h ++ [u]) !! y = Some vy -> vy <> 0 ->
  Q (length h) (h ++ [vx mod Z.abs vy]) ->
  wp (Int_Mod (length h) x y) (h ++ [u]) Q.
Proof.
  intros Hx Hy Hne HQ. apply wp_bind, (wp_load _ _ vx); [exact Hx|].
  apply wp_bind, (wp_load _ _ vy); [exact Hy|].
  destruct (Z.eqb_spec vy 0) as [->|_]; [contradiction|].
  apply wp_store_last, HQ.
Qed.

Lemma wp_Int_Div_last x y vx vy :
  (h ++ [u]) !! x = Some vx -> (h ++ [u]) !! y = Some vy -> vy <> 0 ->
  Q (length h) (h ++ [Z.sgn vy * (vx / Z.abs vy)]) ->
  wp (Int_Div (length h) x y) (h ++ [u]) Q.
Proof.
  intros Hx Hy Hne HQ. apply wp_bind, (wp_load _ _ vx); [exact Hx|].
  apply wp_bind, (wp_load _ _ vy); [exact Hy|].
  destruct (Z.eqb_spec vy 0) as [->|_]; [contradiction|].
  apply wp_store_last, HQ.
Qed.

Lemma wp_Int_Exp_last x y m vx vy vm :
  (h ++ [u]) !! x = Some vx -> (h ++ [u]) !! y = Some vy ->
  (h ++ [u]) !! m = Some vm -> vm <> 0 -> 0 <= vy ->
  Q (length h) (h ++ [(vx ^ vy) mod Z.abs vm]) ->
  wp (Int_Exp (length h) x y m) (h ++ [u]) Q.
Proof.
  intros Hx Hy Hm Hne Hpos HQ. apply wp_bind, (wp_load _ _ vx); [exact Hx|].
  apply wp_bind, (wp_load _ _ vy); [exact Hy|].
  apply wp_bind, (wp_load _ _ vm); [exact Hm|].
  destruct (Z.eqb_spec vm 0) as [->|_]; [contradiction|].
  destruct (Z.ltb_spec vy 0) as [Hlt|_]; [lia|].
  apply wp_store_last, HQ.
Qed.

Lemma wp_Int_SetBytes_last buf :
  Q (length h) (h ++ [be_to_Z (slice_data buf)]) ->
  wp (Int_SetBytes (length h) buf) (h ++ [u]) Q.
Proof. intros HQ. apply wp_store_last, HQ. Qed.

End LastCell.

Lemma wp_Int_Bit x i h vx (Q : Z -> heap -> Prop) :
  h !! x = Some vx -> Q (Z.b2z (Z.testbit vx i)) h -> wp (Int_Bit x i) h Q.
Proof.
  intros Hx HQ. apply wp_bind, (wp_load _ _ vx); [exact Hx|].
  apply wp_ret, HQ.
Qed.

Lemma wp_Int_Cmp x y h vx vy (Q : Z -> heap -> Prop) :
  h !! x = Some vx -> h !! y = Some vy ->
  Q (match vx ?= vy with Lt => -1 | Eq => 0 | Gt => 1 end) h ->
  wp (Int_Cmp x y) h Q.
Proof.
  intros Hx Hy HQ. apply wp_bind, (wp_load _ _ vx); [exact Hx|].
  apply wp_bind, (wp_load _ _ vy); [exact Hy|].
  apply wp_ret, HQ.
Qed.

Lemma wp_Int_Sign x h vx (Q : Z -> heap -> Prop) :
  h !! x = Some vx -> Q (Z.sgn vx) h -> wp (Int_Sign x) h Q.
Proof.
  intros Hx HQ. apply wp_bind, (wp_load _ _ vx); [exact Hx|].
  apply wp_ret, HQ.
Qed.

Lemma wp_Int_Bytes x h vx (Q : slice -> heap -> Prop) :
  h !! x = Some vx ->
  Q (Some (be_of_Z (S (Z.to_nat (Z.log2 (Z.abs vx)))) (Z.abs vx) [])) h ->
  wp (Int_Bytes x) h Q.
Proof.
  intros Hx HQ. apply wp_bind, (wp_load _ _ vx); [exact Hx|].
  apply wp_ret, HQ.
Qed.

Lemma wp_Int_ProbablyPrime x n h vx (Q : bool -> heap -> Prop) :
  h !! x = Some vx -> Q (is_prime vx) h -> wp (Int_ProbablyPrime x n) h Q.
Proof.
  intros Hx HQ. apply wp_bind, (wp_load _ _ vx); [exact Hx|].
  apply wp_ret, HQ.
Qed.

(** *** Facts about [ready] *)

Lemma ready_mono s p h h' : ready s p h -> h `prefix_of` h' -> ready s p h'.
Proof.
  intros (Hg & HP & He) Hpre. repeat split.
  - etransitivity; eassumption.
  - eapply prefix_lookup_Some; eassumption.
  - eapply prefix_lookup_Some; eassumption.
Qed.

Lemma globals_lookup h (i : nat) v :
  globals `prefix_of` h -> globals !! i = Some v -> h !! i = Some v.
Proof. intros Hg Hi. eapply prefix_lookup_Some; eassumption. Qed.

Lemma ready_globals s p h (i : nat) v :
  ready s p h -> globals !! i = Some v -> h !! i = Some v.
Proof.
  intros (Hg & _) Hi. eapply prefix_lookup_Some; eassumption.
Qed.

Lemma prefix_snoc_r (h h' : heap) v : h `prefix_of` h' -> h `prefix_of` h' ++ [v].
Proof. apply prefix_app_r. Qed.

(** ** The neighbour swap *)

Lemma sigma_spec s p h x vx :
  ready s p h -> p <> 0 -> h !! x = Some vx ->
  wp (sigma s x) h (points_to h (sigma_val p vx)).
Proof.
  intros Hr Hp Hx. pose proof Hr as (Hg & HP & He).
  assert (H1 : h !! bigOne = Some 1) by (eapply ready_globals; [eassumption | reflexivity]).
  unfold sigma.
  apply wp_bind, wp_new.
  apply wp_bind, (wp_Int_Bit _ _ _ vx); [heap_lookup|].
  unfold sigma_val. destruct (Z.testbit vx 0); simpl.
  - apply wp_bind. eapply wp_Int_Add_last; [heap_lookup | heap_lookup |].
    eapply wp_Int_Mod_last; [heap_lookup | heap_lookup | exact Hp |].
    split; [apply prefix_app_r; reflexivity | heap_lookup].
  - apply wp_bind. eapply wp_Int_Sub_last; [heap_lookup | heap_lookup |].
    eapply wp_Int_Mod_last; [heap_lookup | heap_lookup | exact Hp |].
    split; [apply prefix_app_r; reflexivity | heap_lookup].
Qed.

(** ** The Jacobi loop returns *)

Lemma trailingZeroBits_nonneg pa : 0 <= trailingZeroBits pa.
Proof. induction pa; simpl; lia. Qed.

Lemma trailingZeroBits_pow pa : 2 ^ trailingZeroBits pa <= Zpos pa.
Proof.
  induction pa as [pa IH | pa IH |]; simpl trailingZeroBits; try (simpl; lia).
  rewrite Z.pow_add_r by (try apply trailingZeroBits_nonneg; lia).
  change (2 ^ 1) with 2. lia.
Qed.

Lemma shiftr_trailing_bounds pa :
  1 <= Z.shiftr (Zpos pa) (trailingZeroBits pa) <= Zpos pa.
Proof.
  pose proof (trailingZeroBits_nonneg pa) as Hs.
  pose proof (trailingZeroBits_pow pa) as Hp.
  rewrite Z.shiftr_div_pow2 by exact Hs.
  assert (Hpos : 0 < 2 ^ trailingZeroBits pa) by (apply Z.pow_pos_nonneg; lia).
  split.
  - apply Z.div_le_lower_bound; lia.
  - apply Z.div_le_upper_bound; [lia|]. nia.
Qed.

Lemma jacobi_loop_total fuel :
  forall a b j, 1 <= b -> (Z.to_nat b <= fuel)%nat ->
                is_Some (jacobi_loop fuel a b j).
Proof.
  induction fuel as [|fuel IH]; intros a b j Hb Hfuel; [lia|].
  simpl. destruct (b =? 1); [eauto|]. destruct (a =? 0); [eauto|].
  pose proof (Z.mod_pos_bound a b ltac:(lia)) as Hmod.
  destruct (a mod b) as [|pa|pa] eqn:Ha; [eauto | | eauto].
  pose proof (shiftr_trailing_bounds pa) as Hc.
  apply IH; lia.
Qed.

Lemma jacobi_total x y : Z.even y = false -> is_Some (jacobi x y).
Proof.
  intros Hodd. unfold jacobi. apply jacobi_loop_total; [|lia].
  destruct y; simpl in *; [discriminate | lia | lia].
Qed.

Lemma wp_Jacobi x y h vx vy (Q : Z -> heap -> Prop) :
  h !! x = Some vx -> h !! y = Some vy -> Z.even vy = false ->
  Q (jacobi_val vx vy) h -> wp (Jacobi x y) h Q.
Proof.
  intros Hx Hy Hodd HQ. apply wp_bind, (wp_load _ _ vx); [exact Hx|].
  apply wp_bind, (wp_load _ _ vy); [exact Hy|].
  rewrite Hodd. unfold jacobi_val in HQ.
  destruct (jacobi_total vx vy Hodd) as [j Hj]. rewrite Hj in *.
  apply wp_ret, HQ.
Qed.

(** ** The square-root step and its inverse *)

Lemma sqrtExp_nonneg p : 0 < p -> 0 <= (p + 1) / 4.
Proof. intros Hp. apply Z.div_pos; lia. Qed.

Lemma rho_spec s p h x vx :
  ready s p h -> 0 < p -> Z.even p = false -> h !! x = Some vx ->
  wp (rho s x) h (points_to h (rho_val p vx)).
Proof.
  intros Hr Hp Hodd Hx. pose proof Hr as (Hg & HP & He).
  pose proof (sqrtExp_nonneg p Hp) as Hexp.
  assert (Hne : p <> 0) by lia.
  unfold rho.
  apply wp_bind, wp_new.
  apply wp_bind, (wp_Jacobi _ _ _ vx p); [heap_lookup | heap_lookup | exact Hodd |].
  unfold rho_val, root_val.
  set (v := if jacobi_val vx p =? 1 then vx else (- vx) mod Z.abs p).
  assert (Hv : forall Q : ptr -> heap -> Prop,
             Q (length h) (h ++ [v]) ->
             wp (if jacobi_val vx p =? 1 then Int_Set (length h) x
                 else t <- Int_Neg (length h) x;; Int_Mod t (length h) (P s))
                (h ++ [0]) Q).
  { intros Q HQ. subst v. destruct (jacobi_val vx p =? 1).
    - eapply wp_Int_Set_last; [heap_lookup | exact HQ].
    - apply wp_bind. eapply wp_Int_Neg_last; [heap_lookup|].
      eapply wp_Int_Mod_last; [heap_lookup | heap_lookup | exact Hne | exact HQ]. }
  apply wp_bind, Hv. clearbody v. clear Hv.
  apply wp_bind, wp_new.
  apply wp_bind.
  eapply wp_Int_Exp_last;
    [heap_lookup | heap_lookup | heap_lookup | exact Hne | exact Hexp |].
  set (root := (v ^ ((p + 1) / 4)) mod Z.abs p).
  apply wp_bind, (wp_Int_Bit _ _ _ root); [heap_lookup|].
  destruct (Z.testbit root 0); simpl.
  - apply wp_bind, wp_new.
    eapply wp_Int_Sub_last; [heap_lookup | heap_lookup |].
    split; [do 3 apply prefix_app_r; reflexivity | heap_lookup].
  - apply wp_ret.
    split; [do 2 apply prefix_app_r; reflexivity | heap_lookup].
Qed.

(** Whatever the parity of [y], the result is [y^2 mod p]: in the odd
    branch [Mod] overwrites the negated square with [ySquared mod p]. *)
Lemma rhoInverse_spec s p h y vy :
  ready s p h -> p <> 0 -> h !! y = Some vy ->
  wp (rhoInverse s y) h (points_to h (rhoInverse_val p vy)).
Proof.
  intros Hr Hne Hy. pose proof Hr as (Hg & HP & He).
  assert (H2 : h !! bigTwo = Some 2) by (eapply ready_globals; [eassumption | reflexivity]).
  unfold rhoInverse, rhoInverse_val.
  apply wp_bind, wp_new.
  apply wp_bind.
  eapply wp_Int_Exp_last;
    [heap_lookup | heap_lookup | heap_lookup | exact Hne | lia |].
  apply wp_bind, (wp_Int_Bit _ _ _ vy); [heap_lookup|].
  destruct (Z.testbit vy 0); simpl.
  - apply wp_bind, wp_new.
    apply wp_bind. eapply wp_Int_Neg_last; [heap_lookup|].
    eapply wp_Int_Mod_last; [heap_lookup | heap_lookup | exact Hne |].
    split; [do 2 apply prefix_app_r; reflexivity|].
    rewrite Z.mod_mod by lia. heap_lookup.
  - apply wp_ret.
    split; [apply prefix_app_r; reflexivity | heap_lookup].
Qed.

Lemma points_to_trans h h1 v r h2 :
  h `prefix_of` h1 -> points_to h1 v r h2 -> points_to h v r h2.
Proof.
  intros Hpre [Hpre' Hr]. split; [etransitivity; eassumption | exact Hr].
Qed.

Lemma Tau_spec s p h x vx :
  ready s p h -> 0 < p -> Z.even p = false -> h !! x = Some vx ->
  wp (Tau s x) h (points_to h (Tau_val p vx)).
Proof.
  intros Hr Hp Hodd Hx. unfold Tau. apply wp_bind.
  eapply wp_mono; [apply (sigma_spec s p h x vx); [exact Hr | lia | exact Hx]|].
  intros y h1 [Hpre Hy]. simpl.
  eapply wp_mono;
    [apply (rho_spec s p h1 y (sigma_val p vx));
       [eapply ready_mono; eassumption | exact Hp | exact Hodd | exact Hy]|].
  intros r h2 Hpt. eapply points_to_trans; eassumption.
Qed.

Lemma TauInverse_spec s p h y vy :
  ready s p h -> p <> 0 -> h !! y = Some vy ->
  wp (TauInverse s y) h (points_to h (TauInverse_val p vy)).
Proof.
  intros Hr Hne Hy. unfold TauInverse, sigmaInverse. apply wp_bind.
  eapply wp_mono; [apply (rhoInverse_spec s p h y vy); assumption|].
  intros x h1 [Hpre Hx]. simpl.
  eapply wp_mono;
    [apply (sigma_spec s p h1 x (rhoInverse_val p vy));
       [eapply ready_mono; eassumption | exact Hne | exact Hx]|].
  intros r h2 Hpt. eapply points_to_trans; eassumption.
Qed.

Lemma wp_value_of (m : M ptr) h v :
  wp m h (points_to h v) -> value_of m h = Some v.
Proof.
  intros Hwp. apply wp_run in Hwp as (r & h' & Hm & _ & Hr).
  unfold value_of. rewrite Hm. exact Hr.
Qed.

(** ** The primality test decides primality *)

Lemma no_divisor_from_sound fuel :
  forall d n, 0 < d -> no_divisor_from fuel d n = true ->
              n <= d + Z.of_nat fuel ->
              forall k, d <= k < n -> n mod k <> 0.
Proof.
  induction fuel as [|fuel IH]; intros d n Hd Hnd Hfuel k Hk; [lia|].
  simpl in Hnd. destruct (Z.leb_spec n d) as [Hle|Hlt]; [lia|].
  destruct (Z.eqb_spec (n mod d) 0) as [Hz|Hnz]; [discriminate|].
  destruct (Z.eq_dec k d) as [->|Hkd]; [exact Hnz|].
  apply (IH (d + 1) n); [lia | exact Hnd | lia | lia].
Qed.

Lemma no_divisor_from_complete fuel :
  forall d n, (forall k, d <= k < n -> n mod k <> 0) ->
              no_divisor_from fuel d n = true.
Proof.
  induction fuel as [|fuel IH]; intros d n Hall; [reflexivity|].
  simpl. destruct (Z.leb_spec n d) as [Hle|Hlt]; [reflexivity|].
  destruct (Z.eqb_spec (n mod d) 0) as [Hz|Hnz].
  - exfalso. apply (Hall d); [lia | exact Hz].
  - apply IH. intros k Hk. apply Hall. lia.
Qed.

Lemma is_prime_spec n : is_prime n = true <-> Z.prime n.
Proof.
  unfold is_prime, Z.prime. rewrite andb_true_iff, Z.leb_le. split.
  - intros [Hn Hnd]. split; [lia|].
    intros k Hk Hdiv.
    apply (no_divisor_from_sound _ 2 n ltac:(lia) Hnd ltac:(lia) k ltac:(lia)).
    apply Z.mod_divide; [lia | exact Hdiv].
  - intros [Hn Hall]. split; [lia|].
    apply no_divisor_from_complete. intros k Hk Hz.
    apply Z.mod_divide in Hz; [|lia].
    apply (Hall k); [lia | exact Hz].
Qed.

Lemma is_prime_false n : is_prime n = false <-> ~ Z.prime n.
Proof.
  rewrite <- is_prime_spec. destruct (is_prime n); split; congruence.
Qed.

Lemma mod_4_3_odd p : p mod 4 = 3 -> Z.even p = false.
Proof.
  intros Hm. rewrite (Z.div_mod p 4) by lia. rewrite Hm.
  replace (4 * (p / 4) + 3) with (3 + 2 * (2 * (p / 4))) by lia.
  rewrite Z.even_add_mul_2. reflexivity.
Qed.

(** ** Values of the steps *)

Lemma rho_val_even p x : Z.even p = false -> Z.testbit (rho_val p x) 0 = false.
Proof.
  intros Hodd. unfold rho_val.
  destruct (Z.testbit (root_val p x) 0) eqn:Hbit; [|exact Hbit].
  rewrite Z.bit0_odd in *. rewrite Z.odd_sub, Hbit.
  rewrite <- Z.negb_even, Hodd. reflexivity.
Qed.

Lemma rho_val_0 p : 3 <= p -> rho_val p 0 = 0.
Proof.
  intros Hp. unfold rho_val, root_val.
  assert (Hv : (if jacobi_val 0 p =? 1 then 0 else (- 0) mod Z.abs p) = 0).
  { destruct (jacobi_val 0 p =? 1); [reflexivity|]. apply Z.mod_0_l. lia. }
  rewrite Hv. rewrite Z.pow_0_l.
  - rewrite Z.mod_0_l by lia. reflexivity.
  - apply Z.div_str_pos. lia.
Qed.

Lemma rhoInverse_val_0 p : p <> 0 -> rhoInverse_val p 0 = 0.
Proof. intros Hp. unfold rhoInverse_val. simpl. apply Z.mod_0_l. lia. Qed.

(** On the non-zero field elements the neighbour swap undoes itself. *)
Lemma sigma_val_involutive p x :
  0 < p -> Z.even p = false -> 1 <= x < p ->
  sigma_val p (sigma_val p x) = x.
Proof.
  intros Hp Hodd Hx. unfold sigma_val. rewrite Z.abs_eq by lia.
  rewrite !Z.bit0_odd.
  assert (Hpo : Z.odd p = true) by (rewrite <- Z.negb_even, Hodd; reflexivity).
  destruct (Z.odd x) eqn:Hox.
  - assert (Hlt : x + 1 < p).
    { destruct (Z.eq_dec (x + 1) p) as [Heq|Hneq]; [|lia].
      rewrite <- Heq, Z.odd_add, Hox in Hpo. discriminate. }
    rewrite (Z.mod_small (x + 1)) by lia.
    rewrite Z.odd_add, Hox. simpl.
    rewrite Z.mod_small by lia. lia.
  - assert (Hx2 : 2 <= x).
    { destruct (Z.eq_dec x 1) as [->|Hneq]; [discriminate | lia]. }
    rewrite (Z.mod_small (x - 1)) by lia.
    rewrite Z.odd_sub, Hox. simpl.
    rewrite Z.mod_small by lia. lia.
Qed.

(** At zero it does not: [0] goes to [p - 1] and then to [p - 2]. *)
Lemma sigma_val_twice_0 p :
  3 <= p -> Z.even p = false -> sigma_val p (sigma_val p 0) = p - 2.
Proof.
  intros Hp Hodd.
  assert (H0 : sigma_val p 0 = p - 1).
  { unfold sigma_val. rewrite Z.abs_eq by lia. simpl Z.testbit. cbv iota.
    symmetry. apply Z.mod_unique with (q := -1); lia. }
  rewrite H0. unfold sigma_val. rewrite Z.abs_eq by lia.
  rewrite Z.bit0_odd, Z.odd_sub, <- Z.negb_even, Hodd. simpl.
  rewrite Z.mod_small by lia. lia.
Qed.

(** ** Construction *)

Lemma New_spec h pp p it :
  globals `prefix_of` h -> h !! pp = Some p ->
  wp (New pp it) h (fun r h' =>
    h `prefix_of` h' /\
    if (0 <? it) && is_prime p && (p mod 4 =? 3)
    then exists e, r = (Some (mkSloth pp it SHA256.New e), None) /\
                   h' !! e = Some ((p + 1) / 4)
    else exists err, r = (None, Some err)).
Proof.
  intros Hg Hpp.
  assert (H1 : h !! bigOne = Some 1) by (eapply globals_lookup; [exact Hg | reflexivity]).
  assert (H3 : h !! bigThree = Some 3) by (eapply globals_lookup; [exact Hg | reflexivity]).
  assert (H4 : h !! bigFour = Some 4) by (eapply globals_lookup; [exact Hg | reflexivity]).
  unfold New.
  destruct (Z.leb_spec it 0) as [Hit|Hit].
  { apply wp_ret. split; [reflexivity|].
    destruct (Z.ltb_spec 0 it); [lia|]. simpl. eauto. }
  destruct (Z.ltb_spec 0 it) as [_|?]; [|lia]. simpl andb.
  apply wp_bind, (wp_Int_ProbablyPrime _ _ _ p); [exact Hpp|].
  destruct (is_prime p); simpl.
  2:{ apply wp_ret. split; [reflexivity | eauto]. }
  apply wp_bind, wp_new.
  apply wp_bind.
  eapply wp_Int_Mod_last; [heap_lookup | heap_lookup | lia |].
  apply wp_bind, (wp_Int_Cmp _ _ _ (p mod Z.abs 4) 3); [heap_lookup | heap_lookup |].
  change (Z.abs 4) with 4.
  destruct (Z.eqb_spec (p mod 4) 3) as [Heq|Hneq].
  - rewrite Heq. simpl.
    apply wp_bind, wp_new.
    apply wp_bind.
    eapply wp_Int_Add_last; [heap_lookup | heap_lookup |].
    apply wp_bind.
    eapply wp_Int_Div_last; [heap_lookup | heap_lookup | lia |].
    apply wp_ret. split; [do 2 apply prefix_app_r; reflexivity|].
    eexists. split; [reflexivity|].
    change (Z.sgn 4) with 1. change (Z.abs 4) with 4. rewrite Z.mul_1_l.
    heap_lookup.
  - destruct (Z.compare_spec (p mod 4) 3) as [Heq|Hlt|Hgt]; [contradiction | |];
      simpl; apply wp_ret; (split; [apply prefix_app_r; reflexivity | eauto]).
Qed.

Lemma constructed_mono s h h' :
  constructed s h -> h `prefix_of` h' -> constructed s h'.
Proof.
  intros (pp & it & h0 & h1 & Hg & HN & Hpre) Hh.
  exists pp, it, h0, h1. repeat split; [exact Hg | exact HN |].
  etransitivity; eassumption.
Qed.

(** What [New] guarantees of the instances it returns. *)
Lemma constructed_valid s h :
  constructed s h ->
  exists p, ready s p h /\ Z.prime p /\ p mod 4 = 3 /\ 0 < Iterations s /\
            HashFunc s = SHA256.New.
Proof.
  intros (pp & it & h0 & h1 & Hg & HN & Hpre).
  destruct (h0 !! pp) as [p|] eqn:Hpp.
  2:{ exfalso. unfold New in HN.
      destruct (it <=? 0); [discriminate|].
      unfold bind, Int_ProbablyPrime, bind, load in HN. rewrite Hpp in HN.
      discriminate. }
  pose proof (New_spec h0 pp p it Hg Hpp) as Hwp.
  unfold wp in Hwp. rewrite HN in Hwp. destruct Hwp as [Hpre01 Hres].
  destruct (Z.ltb_spec 0 it) as [Hit|?];
    [|simpl in Hres; destruct Hres as [? [=]]].
  destruct (is_prime p) eqn:Hprime;
    [|simpl in Hres; destruct Hres as [? [=]]].
  destruct (Z.eqb_spec (p mod 4) 3) as [Hmod|?];
    [|simpl in Hres; destruct Hres as [? [=]]].
  simpl in Hres. destruct Hres as (e & [= ->] & He).
  exists p. simpl.
  split; [|split; [apply is_prime_spec, Hprime | split; [exact Hmod | split; [exact Hit | reflexivity]]]].
  split; [|split].
  - etransitivity; [exact Hg|]. etransitivity; eassumption.
  - eapply prefix_lookup_Some; [exact Hpp|]. etransitivity; eassumption.
  - eapply prefix_lookup_Some; eassumption.
Qed.

(** ** The loops *)

Lemma iterate_spec s p (f : ptr -> M ptr) (fv : Z -> Z) :
  (forall h x vx, ready s p h -> h !! x = Some vx ->
                  wp (f x) h (points_to h (fv vx))) ->
  forall n h x vx, ready s p h -> h !! x = Some vx ->
                   wp (iterate n f x) h (points_to h (iter_val n fv vx)).
Proof.
  intros Hf n. induction n as [|n IH]; intros h x vx Hr Hx; simpl.
  - apply wp_ret. split; [reflexivity | exact Hx].
  - apply wp_bind. eapply wp_mono; [apply (Hf h x vx Hr Hx)|].
    intros y h1 [Hpre Hy]. simpl.
    eapply wp_mono; [apply (IH h1 y (fv vx)); [eapply ready_mono; eassumption | exact Hy]|].
    intros r h2 Hpt. eapply points_to_trans; eassumption.
Qed.

Lemma iter_val_S_r n f w : iter_val (S n) f w = f (iter_val n f w).
Proof.
  revert w. induction n as [|n IH]; intros w; [reflexivity|].
  change (iter_val (S (S n)) f w) with (iter_val (S n) f (f w)).
  rewrite IH. reflexivity.
Qed.

Lemma Compute_spec s p h input :
  ready s p h -> 0 < p -> Z.even p = false ->
  wp (Compute s input) h (fun r h' =>
    h `prefix_of` h' /\
    exists w, r = (digest_val s input (witness_val s p input), w, None) /\
              h' !! w = Some (witness_val s p input)).
Proof.
  intros Hr Hp Hodd. pose proof Hr as (Hg & HP & He).
  assert (Hne : p <> 0) by lia.
  unfold Compute.
  apply wp_bind, wp_new.
  apply wp_bind, wp_Int_SetBytes_last.
  apply wp_bind.
  eapply wp_Int_Mod_last; [heap_lookup | heap_lookup | exact Hne |].
  fold (w0_val s p input).
  apply wp_bind.
  eapply wp_mono.
  { apply (iterate_spec s p (Tau s) (Tau_val p)) with (vx := w0_val s p input).
    - intros h0 x vx Hr0 Hx. apply Tau_spec; assumption.
    - eapply ready_mono; [exact Hr | apply prefix_app_r; reflexivity].
    - heap_lookup. }
  intros w h1 [Hpre Hw]. simpl. fold (witness_val s p input) in Hw.
  apply wp_bind, wp_new.
  apply wp_bind.
  eapply wp_Int_Set_last; [heap_lookup|].
  apply wp_bind, (wp_Int_Bytes _ _ (witness_val s p input)); [heap_lookup|].
  apply wp_ret. split.
  - etransitivity; [|apply prefix_app_r; reflexivity].
    etransitivity; [|exact Hpre]. apply prefix_app_r. reflexivity.
  - eexists. split; [reflexivity | heap_lookup].
Qed.

Lemma witness_val_even s p input :
  0 < Iterations s -> Z.even p = false ->
  Z.testbit (witness_val s p input) 0 = false.
Proof.
  intros Hit Hodd. unfold witness_val.
  destruct (Z.to_nat (Iterations s)) as [|n] eqn:Hn; [lia|].
  rewrite iter_val_S_r. unfold Tau_val. apply rho_val_even, Hodd.
Qed.

(** ** The hash model on the standard test vectors *)

Example sum256_abc :
  be_to_Z (SHA256.sum256 (list_byte_of_string "abc"))
  = 0xba7816bf8f01cfea414140de5dae2223b00361a396177a9cb410ff61f20015ad.
Proof. vm_compute. reflexivity. Qed.

Example sum256_empty :
  be_to_Z (SHA256.sum256 [])
  = 0xe3b0c44298fc1c149afbf4c8996fb92427ae41e4649b934ca495991b7852b855.
Proof. vm_compute. reflexivity. Qed.

Example sum256_two_blocks :
  be_to_Z (SHA256.sum256 (list_byte_of_string
             "abcdbcdecdefdefgefghfghighijhijkijkljklmklmnlmnomnopnopq"))
  = 0x248d6a61d20638b8e5c026930c3e6039a33ce45964ff2167f6ecedd419db06c1.
Proof. vm_compute. reflexivity. Qed.

Example Bytes_val_258 : Bytes_val 258 = [x01; x02] /\ Bytes_val 0 = [].
Proof. split; reflexivity. Qed.

Example be_to_Z_Bytes_val : be_to_Z (Bytes_val 1234567) = 1234567.
Proof. reflexivity. Qed.

Example sum256_d_mod_7 :
  be_to_Z (SHA256.sum256 (list_byte_of_string "d")) mod 7 = 4.
Proof. vm_compute. reflexivity. Qed.

(** ** The example instance *)

Lemma demo_New :
  New 5%nat 1 (globals ++ [7]) = Some ((Some demo_sloth, None), demo_heap).
Proof. reflexivity. Qed.

Lemma demo_constructed : constructed demo_sloth demo_heap.
Proof.
  exists 5%nat, 1, (globals ++ [7]), demo_heap.
  split; [apply prefix_app_r; reflexivity|].
  split; [exact demo_New | reflexivity].
Qed.

Lemma demo_constructed_later d : constructed demo_sloth (demo_heap ++ d).
Proof.
  eapply constructed_mono; [exact demo_constructed|].
  apply prefix_app_r. reflexivity.
Qed.

(** ** What the steps do in place of the inverse property *)

Lemma constructed_modulus s h p :
  constructed s h -> h !! P s = Some p ->
  ready s p h /\ 3 <= p /\ Z.even p = false.
Proof.
  intros Hc HP.
  destruct (constructed_valid s h Hc) as (q & Hr & [Hq1 _] & Hmod & _).
  pose proof Hr as (_ & HP' & _).
  assert (q = p) as -> by congruence.
  pose proof (mod_4_3_odd p Hmod) as Hodd.
  split; [exact Hr|]. split; [|exact Hodd].
  destruct (Z.eq_dec p 2) as [->|?]; [discriminate | lia].
Qed.

Lemma sigma_twice_spec s h p (x : ptr) vx :
  constructed s h -> h !! P s = Some p -> h !! x = Some vx ->
  value_of (y <- sigma s x;; sigmaInverse s y) h
  = Some (sigma_val p (sigma_val p vx)).
Proof.
  intros Hc HP Hx.
  destruct (constructed_modulus s h p Hc HP) as (Hr & Hp & Hodd).
  apply wp_value_of, wp_bind.
  eapply wp_mono; [apply (sigma_spec s p h x vx Hr ltac:(lia) Hx)|].
  intros y h1 [Hpre Hy]. simpl. unfold sigmaInverse.
  eapply wp_mono;
    [apply (sigma_spec s p h1 y (sigma_val p vx));
       [eapply ready_mono; eassumption | lia | exact Hy]|].
  intros r h2 Hpt. eapply points_to_trans; eassumption.
Qed.

(** X2. The swap is undone on [1 .. p-1]; from [0] the two swaps lead to
    [p - 2]. *)
Lemma sigma_twice_field s h p (x : ptr) vx :
  constructed s h -> h !! P s = Some p -> h !! x = Some vx -> 0 <= vx < p ->
  value_of (y <- sigma s x;; sigmaInverse s y) h
  = Some (if vx =? 0 then p - 2 else vx).
Proof.
  intros Hc HP Hx Hv.
  destruct (constructed_modulus s h p Hc HP) as (Hr & Hp & Hodd).
  rewrite (sigma_twice_spec s h p x vx Hc HP Hx). f_equal.
  destruct (Z.eqb_spec vx 0) as [->|Hne].
  - apply sigma_val_twice_0; assumption.
  - apply sigma_val_involutive; [lia | exact Hodd | lia].
Qed.

Lemma Tau_TauInverse_spec s h p (x : ptr) vx :
  constructed s h -> h !! P s = Some p -> h !! x = Some vx ->
  value_of (y <- Tau s x;; TauInverse s y) h
  = Some (TauInverse_val p (Tau_val p vx)).
Proof.
  intros Hc HP Hx.
  destruct (constructed_modulus s h p Hc HP) as (Hr & Hp & Hodd).
  apply wp_value_of, wp_bind.
  eapply wp_mono; [apply (Tau_spec s p h x vx Hr ltac:(lia) Hodd Hx)|].
  intros y h1 [Hpre Hy]. simpl.
  eapply wp_mono;
    [apply (TauInverse_spec s p h1 y (Tau_val p vx));
       [eapply ready_mono; eassumption | lia | exact Hy]|].
  intros r h2 Hpt. eapply points_to_trans; eassumption.
Qed.

Lemma sigma_val_collision p :
  3 <= p -> Z.even p = false -> sigma_val p 0 = sigma_val p (p - 2).
Proof.
  intros Hp Hodd. unfold sigma_val. rewrite Z.abs_eq by lia.
  rewrite (Z.bit0_odd (p - 2)), Z.odd_sub, <- Z.negb_even, Hodd.
  simpl. replace (p - 2 + 1) with (p - 1) by lia.
  rewrite (Z.mod_small (p - 1)) by lia.
  symmetry. apply Z.mod_unique with (q := -1); lia.
Qed.

(** X5. On every instance [New] returns, the round trip sends the two
    distinct field elements [0] and [p - 2] to the same value: it restores
    at most one of them. *)
Lemma Tau_TauInverse_collision s h p (x0 x1 : ptr) :
  constructed s h -> h !! P s = Some p ->
  h !! x0 = Some 0 -> h !! x1 = Some (p - 2) ->
  0 <> p - 2 /\
  value_of (y <- Tau s x0;; TauInverse s y) h
  = value_of (y <- Tau s x1;; TauInverse s y) h.
Proof.
  intros Hc HP H0 H1.
  destruct (constructed_modulus s h p Hc HP) as (Hr & Hp & Hodd).
  split; [lia|].
  rewrite (Tau_TauInverse_spec s h p x0 0 Hc HP H0).
  rewrite (Tau_TauInverse_spec s h p x1 (p - 2) Hc HP H1).
  unfold Tau_val. rewrite (sigma_val_collision p Hp Hodd). reflexivity.
Qed.

(** X3. On every instance [New] returns, the inverse square-root step of
    an odd field element [y] in [1, p-1] is [y^2 mod p], which is not
    [(-y^2) mod p]. *)
Lemma rhoInverse_odd s h p (y : ptr) vy :
  constructed s h -> h !! P s = Some p -> h !! y = Some vy ->
  0 < vy < p -> Z.testbit vy 0 = true ->
  value_of (rhoInverse s y) h = Some (vy ^ 2 mod p) /\
  vy ^ 2 mod p <> (- vy ^ 2) mod p.
Proof.
  intros Hc HP Hy Hv Hbit.
  destruct (constructed_valid s h Hc) as (q & Hr & Hprime & Hmod & _).
  pose proof Hr as (_ & HP' & _).
  assert (q = p) as -> by congruence.
  destruct (constructed_modulus s h p Hc HP) as (_ & Hp & Hodd).
  split.
  - rewrite <- (Z.abs_eq p) at 1 by lia.
    apply wp_value_of, rhoInverse_spec; [exact Hr | lia | exact Hy].
  - intros Heq.
    assert (Hdiv : (p | 2 * vy ^ 2)).
    { apply Z.mod_divide; [lia|].
      replace (2 * vy ^ 2) with (vy ^ 2 - - vy ^ 2) by lia.
      rewrite Zminus_mod, Heq, Z.sub_diag. apply Z.mod_0_l. lia. }
    assert (Hndiv : forall a, 0 < a < p -> ~ (p | a)).
    { intros a Ha Hd. apply Z.divide_pos_le in Hd; lia. }
    replace (2 * vy ^ 2) with (2 * vy * vy) in Hdiv by (rewrite Z.pow_2_r; lia).
    apply Z.divide_prime_mul in Hdiv; [|exact Hprime].
    destruct Hdiv as [Hdiv|Hdiv]; [|apply (Hndiv vy); assumption].
    apply Z.divide_prime_mul in Hdiv; [|exact Hprime].
    destruct Hdiv as [Hdiv|Hdiv]; [apply (Hndiv 2); [lia | exact Hdiv]|].
    apply (Hndiv vy); assumption.
Qed.

(** * The claims *)

(** C1. The inverse property asks that [TauInverse(Tau(x)) = x] for every
    field element.  On the instance [New(7, 1)] the code sends [x = 4] to
    [Tau(4) = 2] and [TauInverse(2) = 3]: the round trip returns 3, not 4. *)
Theorem TauInverse_Tau_at_4 :
  result_of
    (with_New 7 1 (fun s =>
       x <- NewInt 4;; y <- Tau s x;; z <- TauInverse s y;;
       vy <- load y;; vz <- load z;; ret (vy, vz)))
    globals
  = Some (2, 3).
Proof. vm_compute. reflexivity. Qed.

(** C3. The claim asks [(-y^2) mod p] for odd [y].  On the instance
    [New(7, 1)] and the odd [y = 3] the code returns [3^2 mod 7 = 2], where
    the claimed value is [(-9) mod 7 = 5]. *)
Theorem rhoInverse_at_3 :
  result_of
    (with_New 7 1 (fun s => y <- NewInt 3;; r <- rhoInverse s y;; load r))
    globals
  = Some 2
  /\ (- 3 ^ 2) mod 7 = 5.
Proof. split; vm_compute; reflexivity. Qed.

(** C4. The claim asks [sigma(sigma(x)) = x] on the whole field.  On the
    instance [New(7, 1)] the code sends [0] to [6] and [6] to [5]. *)
Theorem sigma_sigma_at_0 :
  result_of
    (with_New 7 1 (fun s =>
       x <- NewInt 0;; y <- sigma s x;; z <- sigmaInverse s y;;
       vy <- load y;; vz <- load z;; ret (vy, vz)))
    globals
  = Some (6, 5).
Proof. vm_compute. reflexivity. Qed.

(** C2. The round trip asks that [Verify] accepts what [Compute] returns.
    On the instance [New(7, 1)] and the one-byte input ["d"] (whose SHA-256
    digest is 4 modulo 7) [Compute] returns the witness 2 and [Verify]
    rejects it. *)
Theorem Verify_rejects_Compute_output :
  result_of
    (with_New 7 1 (fun s =>
       c <- Compute s (Some (list_byte_of_string "d"));;
       let '(hash, witness, _) := c in
       vw <- load witness;;
       v <- Verify s (Some (list_byte_of_string "d")) hash (Some witness);;
       ret (vw, v)))
    globals
  = Some (2, (false,
              Some "verification failed: reversed witness does not match initial value"%string)).
Proof. vm_compute. reflexivity. Qed.

(** The same on the input of the package's own test, with the prime 1019
    and one iteration: the witness is 54 and [Verify] rejects it. *)
Example Verify_rejects_test_input :
  result_of
    (with_New 1019 1 (fun s =>
       let input := Some (list_byte_of_string
                            "A random zoo: sloth, unicorn, and trx") in
       c <- Compute s input;;
       let '(hash, witness, _) := c in
       vw <- load witness;;
       v <- Verify s input hash (Some witness);;
       ret (vw, fst v)))
    globals
  = Some (54, false).
Proof. vm_compute. reflexivity. Qed.

Lemma wp_exact {A} (m : M A) h a0 h0 :
  wp m h (fun a h' => a = a0 /\ h' = h0) -> m h = Some (a0, h0).
Proof.
  intros Hwp. apply wp_run in Hwp as (a & h' & Hm & -> & ->). exact Hm.
Qed.

Lemma list_byte_eqb_spec a : forall b, list_byte_eqb a b = true <-> a = b.
Proof.
  induction a as [|x a IH]; intros [|y b]; simpl; try (split; congruence).
  rewrite andb_true_iff, IH. split.
  - intros [Hxy ->]. apply Byte.byte_dec_bl in Hxy. congruence.
  - intros [= -> ->]. split; [apply Byte.byte_dec_lb|]; reflexivity.
Qed.

(** C5. [New] returns an error and no instance exactly when the iteration
    count is not positive, or [p] is not prime, or [p] is not 3 modulo 4;
    otherwise it returns, without error, an instance for [p] and the
    iteration count whose [sqrtExp] holds [(p + 1) / 4]. *)
Theorem New_rejects_exactly h (pp : ptr) p it :
  globals `prefix_of` h -> h !! pp = Some p ->
  exists r h',
    New pp it h = Some (r, h') /\
    ((it <= 0 \/ ~ Z.prime p \/ p mod 4 <> 3) <->
     (exists err, r = (None, Some err))) /\
    ((0 < it /\ Z.prime p /\ p mod 4 = 3) <->
     (exists s, r = (Some s, None) /\ P s = pp /\ Iterations s = it /\
                h' !! sqrtExp s = Some ((p + 1) / 4))).
Proof.
  intros Hg Hpp.
  destruct (wp_run _ _ _ (New_spec h pp p it Hg Hpp)) as (r & h' & HN & _ & Hres).
  exists r, h'. split; [exact HN|].
  destruct (Z.ltb_spec 0 it) as [Hit|Hit]; simpl in Hres.
  - destruct (is_prime p) eqn:Hprime; simpl in Hres.
    + apply is_prime_spec in Hprime.
      destruct (Z.eqb_spec (p mod 4) 3) as [Hmod|Hmod].
      * destruct Hres as (e & -> & He). split; split.
        -- intros [?|[?|?]]; [lia | contradiction | contradiction].
        -- intros [err [=]].
        -- intros _. eexists. repeat split. exact He.
        -- intros _. split; [exact Hit | split; [exact Hprime | exact Hmod]].
      * destruct Hres as (err & ->). split; split.
        -- intros _. eauto.
        -- intros _. right. right. exact Hmod.
        -- intros (_ & _ & ?). contradiction.
        -- intros (s & [=] & _).
    + apply is_prime_false in Hprime.
      destruct Hres as (err & ->). split; split.
      * intros _. eauto.
      * intros _. right. left. exact Hprime.
      * intros (_ & ? & _). contradiction.
      * intros (s & [=] & _).
  - destruct Hres as (err & ->). split; split.
    + intros _. eauto.
    + intros _. left. exact Hit.
    + intros (? & _). lia.
    + intros (s & [=] & _).
Qed.

Lemma New_rejects_exactly_witness :
  exists r h',
    New 5%nat 1 (globals ++ [7]) = Some (r, h') /\
    ((1 <= 0 \/ ~ Z.prime 7 \/ 7 mod 4 <> 3) <->
     (exists err, r = (None, Some err))) /\
    ((0 < 1 /\ Z.prime 7 /\ 7 mod 4 = 3) <->
     (exists s, r = (Some s, None) /\ P s = 5%nat /\ Iterations s = 1 /\
                h' !! sqrtExp s = Some ((7 + 1) / 4))).
Proof.
  apply (New_rejects_exactly (globals ++ [7]) 5%nat 7 1).
  - apply prefix_app_r. reflexivity.
  - reflexivity.
Defined.

(** The three rejections of the package's own parameter test. *)
Example New_rejects_17 :
  result_of (pp <- NewInt 17;; New pp 100) globals
  = Some (None, Some "p must be congruent to 3 (mod 4)"%string).
Proof. vm_compute. reflexivity. Qed.

Example New_rejects_9 :
  result_of (pp <- NewInt 9;; New pp 100) globals
  = Some (None, Some "p is not a prime number"%string).
Proof. vm_compute. reflexivity. Qed.

Example New_rejects_0_iterations :
  result_of (pp <- NewInt 7;; New pp 0) globals
  = Some (None, Some "iterations must be positive"%string).
Proof. vm_compute. reflexivity. Qed.

(** C7. Zero is a fixed point of both square-root steps of every instance
    [New] returns: [rho(0) = 0] and [rhoInverse(0) = 0]. *)
Theorem rho_rhoInverse_zero s h (x : ptr) :
  constructed s h -> h !! x = Some 0 ->
  value_of (rho s x) h = Some 0 /\ value_of (rhoInverse s x) h = Some 0.
Proof.
  intros Hc Hx.
  destruct (constructed_valid s h Hc) as (p & Hr & Hprime & Hmod & _).
  pose proof (mod_4_3_odd p Hmod) as Hodd.
  destruct Hprime as [Hp1 _].
  assert (Hp3 : 3 <= p).
  { destruct (Z.eq_dec p 2) as [->|?]; [discriminate | lia]. }
  split; apply wp_value_of.
  - rewrite <- (rho_val_0 p Hp3). apply rho_spec; [exact Hr | lia | exact Hodd | exact Hx].
  - rewrite <- (rhoInverse_val_0 p ltac:(lia)).
    apply rhoInverse_spec; [exact Hr | lia | exact Hx].
Qed.

Lemma rho_rhoInverse_zero_witness :
  constructed demo_sloth (demo_heap ++ [0]) /\
  (demo_heap ++ [0]) !! 8%nat = Some 0 /\
  value_of (rho demo_sloth 8%nat) (demo_heap ++ [0]) = Some 0 /\
  value_of (rhoInverse demo_sloth 8%nat) (demo_heap ++ [0]) = Some 0.
Proof.
  split; [apply demo_constructed_later|].
  split; [reflexivity|].
  apply (rho_rhoInverse_zero demo_sloth (demo_heap ++ [0]) 8%nat).
  - apply demo_constructed_later.
  - reflexivity.
Defined.

(** C8. For every instance [New] returns (so at least one iteration) and
    every input, [Compute] returns, without error, a witness whose lowest
    bit is 0; and every output of [Tau] has lowest bit 0. *)
Theorem Compute_witness_even s h input :
  constructed s h ->
  (exists hash (w : ptr) h' v,
      Compute s input h = Some ((hash, w, None), h') /\
      h' !! w = Some v /\ Z.testbit v 0 = false) /\
  (forall (x : ptr) vx, h !! x = Some vx ->
      exists v, value_of (Tau s x) h = Some v /\ Z.testbit v 0 = false).
Proof.
  intros Hc.
  destruct (constructed_valid s h Hc) as (p & Hr & [Hp1 _] & Hmod & Hit & _).
  pose proof (mod_4_3_odd p Hmod) as Hodd.
  split.
  - destruct (wp_run _ _ _ (Compute_spec s p h input Hr ltac:(lia) Hodd))
      as (r & h' & HC & _ & w & -> & Hw).
    exists (digest_val s input (witness_val s p input)), w, h',
           (witness_val s p input).
    split; [exact HC|]. split; [exact Hw|].
    apply witness_val_even; assumption.
  - intros x vx Hx. exists (Tau_val p vx). split.
    + apply wp_value_of, Tau_spec; [exact Hr | lia | exact Hodd | exact Hx].
    + apply rho_val_even, Hodd.
Qed.

Lemma Compute_witness_even_witness :
  constructed demo_sloth demo_heap /\
  (exists hash (w : ptr) h' v,
      Compute demo_sloth (Some (list_byte_of_string "d")) demo_heap
        = Some ((hash, w, None), h') /\
      h' !! w = Some v /\ Z.testbit v 0 = false) /\
  (forall (x : ptr) vx, demo_heap !! x = Some vx ->
      exists v, value_of (Tau demo_sloth x) demo_heap = Some v /\
                Z.testbit v 0 = false).
Proof.
  split; [exact demo_constructed|].
  apply (Compute_witness_even demo_sloth demo_heap
           (Some (list_byte_of_string "d"))).
  exact demo_constructed.
Defined.

(** C9. [Compute] is deterministic: two calls on the same instance with the
    same input, the second in the same or any later store, both return
    without error, with the same digest and witnesses of the same value. *)
Theorem Compute_deterministic s h h' input :
  constructed s h -> h `prefix_of` h' ->
  exists hash v (w w' : ptr) k k',
    Compute s input h = Some ((hash, w, None), k) /\
    Compute s input h' = Some ((hash, w', None), k') /\
    k !! w = Some v /\ k' !! w' = Some v.
Proof.
  intros Hc Hpre.
  destruct (constructed_valid s h Hc) as (p & Hr & [Hp1 _] & Hmod & _).
  pose proof (mod_4_3_odd p Hmod) as Hodd.
  pose proof (ready_mono s p h h' Hr Hpre) as Hr'.
  destruct (wp_run _ _ _ (Compute_spec s p h input Hr ltac:(lia) Hodd))
    as (r & k & HC & _ & w & -> & Hw).
  destruct (wp_run _ _ _ (Compute_spec s p h' input Hr' ltac:(lia) Hodd))
    as (r' & k' & HC' & _ & w' & -> & Hw').
  exists (digest_val s input (witness_val s p input)),
         (witness_val s p input), w, w', k, k'.
  repeat split; assumption.
Qed.

Lemma Compute_deterministic_witness :
  constructed demo_sloth demo_heap /\
  demo_heap `prefix_of` demo_heap ++ [4; 1] /\
  exists hash v (w w' : ptr) k k',
    Compute demo_sloth (Some (list_byte_of_string "d")) demo_heap
      = Some ((hash, w, None), k) /\
    Compute demo_sloth (Some (list_byte_of_string "d")) (demo_heap ++ [4; 1])
      = Some ((hash, w', None), k') /\
    k !! w = Some v /\ k' !! w' = Some v.
Proof.
  split; [exact demo_constructed|].
  split; [apply prefix_app_r; reflexivity|].
  apply (Compute_deterministic demo_sloth demo_heap (demo_heap ++ [4; 1])
           (Some (list_byte_of_string "d"))).
  - exact demo_constructed.
  - apply prefix_app_r. reflexivity.
Defined.

(** ** The checks of Verify *)

(** Every inverse step allocates, so a store left as it was shows that the
    inverse loop did not run. *)
Lemma grows_ret {A} (a : A) : grows (ret a) 0.
Proof. intros h a' h' [= <- <-]. lia. Qed.

Lemma grows_panic {A} n : grows (@panic A) n.
Proof. intros h a h' [=]. Qed.

Lemma grows_alloc v : grows (alloc v) 1.
Proof. intros h a h' [= <- <-]. rewrite length_app. simpl. lia. Qed.

Lemma grows_load x : grows (load x) 0.
Proof.
  intros h a h'. unfold load. destruct (h !! x); [|discriminate].
  intros [= <- <-]. lia.
Qed.

Lemma grows_store z v : grows (store z v) 0.
Proof.
  intros h a h'. unfold store. destruct (h !! z); [|discriminate].
  intros [= <- <-]. rewrite length_insert. lia.
Qed.

Lemma grows_bind {A B} (m : M A) (k : A -> M B) n n' :
  grows m n -> (forall a, grows (k a) n') -> grows (bind m k) (n + n').
Proof.
  intros Hm Hk h b h'. unfold bind.
  destruct (m h) as [[a h1]|] eqn:Hrun; [|discriminate].
  intros Hrun'. apply Hm in Hrun. apply Hk in Hrun'. lia.
Qed.

Lemma grows_weaken {A} (m : M A) n n' : grows m n -> (n' <= n)%nat -> grows m n'.
Proof. intros Hm Hle h a h' Hrun. apply Hm in Hrun. lia. Qed.

Ltac grows0 :=
  repeat first
    [ apply grows_ret | apply grows_load | apply grows_store
    | apply grows_panic
    | apply (grows_bind _ _ 0 0); [|intros ?]
    | match goal with
      | |- grows (if ?b then _ else _) _ => destruct b
      end ].

Lemma sigma_grows s x : grows (sigma s x) 1.
Proof.
  unfold sigma. apply (grows_bind _ _ 1 0); [apply grows_alloc|]. intros res.
  unfold Int_Bit, Int_Sub, Int_Add, Int_Mod. grows0.
Qed.

Lemma rhoInverse_grows s y : grows (rhoInverse s y) 0.
Proof.
  unfold rhoInverse, new, Int_Exp, Int_Bit, Int_Neg, Int_Mod.
  apply (grows_bind _ _ 0 0);
    [eapply grows_weaken; [apply grows_alloc | lia]|]. intros e.
  apply (grows_bind _ _ 0 0); [grows0|]. intros ySquared.
  apply (grows_bind _ _ 0 0); [grows0|]. intros b.
  destruct (b =? 0); [apply grows_ret|].
  apply (grows_bind _ _ 0 0);
    [eapply grows_weaken; [apply grows_alloc | lia]|]. intros n.
  grows0.
Qed.

Lemma TauInverse_allocates s (y : ptr) h r h' :
  TauInverse s y h = Some (r, h') -> (length h < length h')%nat.
Proof.
  intros Hrun.
  assert (Hg : grows (TauInverse s y) 1).
  { unfold TauInverse, sigmaInverse.
    apply (grows_bind _ _ 0 1); [apply rhoInverse_grows|].
    intros x. apply sigma_grows. }
  apply Hg in Hrun. lia.
Qed.

(** C6. [Verify] rejects, in this order and before its inverse loop: a nil
    input, a nil digest, a nil witness (usage errors); a witness that is
    negative or not below [p]; a digest that differs from the hash of the
    witness's bytes.  Each time the answer is [false] with an error, and the
    store is left as it was: no inverse step has run. *)
Theorem Verify_rejects_in_order s p h input hash (witness : option ptr) :
  h !! P s = Some p ->
  (input = None ->
   Verify s input hash witness h
   = Some ((false, Some "input cannot be nil"%string), h)) /\
  (input <> None -> hash = None ->
   Verify s input hash witness h
   = Some ((false, Some "hash cannot be nil"%string), h)) /\
  (input <> None -> hash <> None -> witness = None ->
   Verify s input hash witness h
   = Some ((false, Some "witness cannot be nil"%string), h)) /\
  (forall (w : ptr) v,
      input <> None -> hash <> None -> witness = Some w -> h !! w = Some v ->
      v < 0 \/ p <= v ->
      Verify s input hash witness h
      = Some ((false, Some "witness must be in the range [0, p-1]"%string), h)) /\
  (forall (w : ptr) v,
      input <> None -> hash <> None -> witness = Some w -> h !! w = Some v ->
      0 <= v < p ->
      slice_data hash <> slice_data (expected_digest s v) ->
      Verify s input hash witness h
      = Some ((false,
               Some "hash of witness does not match provided hash"%string), h)).
Proof.
  intros HP. repeat apply conj.
  - intros ->. reflexivity.
  - intros Hi ->. destruct input; [reflexivity | contradiction].
  - intros Hi Hh ->.
    destruct input; [|contradiction]. destruct hash; [reflexivity | contradiction].
  - intros w v Hi Hh -> Hw Hv.
    destruct input as [i|]; [|contradiction].
    destruct hash as [d|]; [|contradiction].
    apply wp_exact. unfold Verify.
    apply wp_bind, (wp_Int_Cmp _ _ _ v p); [exact Hw | exact HP |].
    destruct (Z.compare_spec v p) as [Heq|Hlt|Hgt]; simpl.
    + apply wp_ret. split; reflexivity.
    + apply wp_bind, (wp_Int_Sign _ _ v); [exact Hw|].
      assert (Hs : (Z.sgn v <? 0) = true).
      { apply Z.ltb_lt, Z.sgn_neg_iff. lia. }
      rewrite Hs. apply wp_ret. split; reflexivity.
    + apply wp_ret. split; reflexivity.
  - intros w v Hi Hh -> Hw Hv Hd.
    destruct input as [i|]; [|contradiction].
    destruct hash as [d|]; [|contradiction].
    apply wp_exact. unfold Verify.
    apply wp_bind, (wp_Int_Cmp _ _ _ v p); [exact Hw | exact HP |].
    assert (Hc : match v ?= p with Lt => -1 | Eq => 0 | Gt => 1 end = -1).
    { destruct (Z.compare_spec v p); [lia | reflexivity | lia]. }
    rewrite Hc. change (0 <=? -1) with false. cbv iota.
    apply wp_bind, (wp_Int_Sign _ _ v); [exact Hw|].
    assert (Hs : (Z.sgn v <? 0) = false).
    { apply Z.ltb_ge, Z.sgn_nonneg. lia. }
    rewrite Hs. change (false || false) with false. cbv iota.
    apply wp_bind, (wp_Int_Bytes _ _ v); [exact Hw|].
    fold (Bytes_val v). fold (expected_digest s v).
    assert (He : bytes_Equal (Some d) (expected_digest s v) = false).
    { unfold bytes_Equal.
      destruct (list_byte_eqb _ _) eqn:Heqb; [|reflexivity].
      apply list_byte_eqb_spec in Heqb. contradiction. }
    rewrite He. apply wp_ret. split; reflexivity.
Qed.

Lemma Verify_rejects_in_order_witness :
  (demo_heap ++ [9]) !! P demo_sloth = Some 7 /\
  (Some (list_byte_of_string "d") = None ->
   Verify demo_sloth (Some (list_byte_of_string "d")) (Some []) (Some 8%nat)
          (demo_heap ++ [9])
   = Some ((false, Some "input cannot be nil"%string), demo_heap ++ [9])) /\
  (Some (list_byte_of_string "d") <> None -> Some (@nil byte) = None ->
   Verify demo_sloth (Some (list_byte_of_string "d")) (Some []) (Some 8%nat)
          (demo_heap ++ [9])
   = Some ((false, Some "hash cannot be nil"%string), demo_heap ++ [9])) /\
  (Some (list_byte_of_string "d") <> None -> Some (@nil byte) <> None ->
   Some 8%nat = None ->
   Verify demo_sloth (Some (list_byte_of_string "d")) (Some []) (Some 8%nat)
          (demo_heap ++ [9])
   = Some ((false, Some "witness cannot be nil"%string), demo_heap ++ [9])) /\
  (forall (w : ptr) v,
      Some (list_byte_of_string "d") <> None -> Some (@nil byte) <> None ->
      Some 8%nat = Some w -> (demo_heap ++ [9]) !! w = Some v ->
      v < 0 \/ 7 <= v ->
      Verify demo_sloth (Some (list_byte_of_string "d")) (Some []) (Some 8%nat)
             (demo_heap ++ [9])
      = Some ((false, Some "witness must be in the range [0, p-1]"%string),
              demo_heap ++ [9])) /\
  (forall (w : ptr) v,
      Some (list_byte_of_string "d") <> None -> Some (@nil byte) <> None ->
      Some 8%nat = Some w -> (demo_heap ++ [9]) !! w = Some v ->
      0 <= v < 7 ->
      slice_data (Some []) <> slice_data (expected_digest demo_sloth v) ->
      Verify demo_sloth (Some (list_byte_of_string "d")) (Some []) (Some 8%nat)
             (demo_heap ++ [9])
      = Some ((false,
               Some "hash of witness does not match provided hash"%string),
              demo_heap ++ [9])).
Proof.
  split; [reflexivity|].
  apply (Verify_rejects_in_order demo_sloth 7 (demo_heap ++ [9])
           (Some (list_byte_of_string "d")) (Some []) (Some 8%nat)).
  reflexivity.
Defined.

(** The five rejections on the example instance, in the order of the
    checks; the store [demo_heap ++ [v]] holds a witness of value [v] at
    cell 8. *)
Example Verify_nil_input :
  Verify demo_sloth None None None demo_heap
  = Some ((false, Some "input cannot be nil"%string), demo_heap).
Proof. reflexivity. Qed.

Example Verify_nil_hash :
  Verify demo_sloth (Some []) None None demo_heap
  = Some ((false, Some "hash cannot be nil"%string), demo_heap).
Proof. reflexivity. Qed.

Example Verify_nil_witness :
  Verify demo_sloth (Some []) (Some []) None demo_heap
  = Some ((false, Some "witness cannot be nil"%string), demo_heap).
Proof. reflexivity. Qed.

Example Verify_witness_p :
  Verify demo_sloth (Some []) (Some []) (Some 8%nat) (demo_heap ++ [7])
  = Some ((false, Some "witness must be in the range [0, p-1]"%string),
          demo_heap ++ [7]).
Proof. reflexivity. Qed.

Example Verify_witness_negative :
  Verify demo_sloth (Some []) (Some []) (Some 8%nat) (demo_heap ++ [-1])
  = Some ((false, Some "witness must be in the range [0, p-1]"%string),
          demo_heap ++ [-1]).
Proof. reflexivity. Qed.

Example Verify_wrong_hash :
  Verify demo_sloth (Some []) (Some []) (Some 8%nat) (demo_heap ++ [2])
  = Some ((false, Some "hash of witness does not match provided hash"%string),
          demo_heap ++ [2]).
Proof. vm_compute. reflexivity. Qed.

(** ** The prime generator *)

Section GeneratorProofs.

Variable rng : Type.
Variable rand_Prime : rng -> Z -> (Z + string) * rng.

(** One round of the loop on a candidate [v]: it is returned when it is 3
    modulo 4, and the loop goes on otherwise. *)
Lemma GenerateSlothPrime_round fuel bits r h v r' :
  globals `prefix_of` h -> rand_Prime r bits = (inl v, r') ->
  GenerateSlothPrime rng rand_Prime (S fuel) bits r h
  = if v mod 4 =? 3
    then Some (Some ((Some (length h), None), r'), h ++ [v; v mod 4])
    else GenerateSlothPrime rng rand_Prime fuel bits r' (h ++ [v; v mod 4]).
Proof.
  intros Hg Hdraw. simpl. rewrite Hdraw.
  assert (H3 : h !! bigThree = Some 3) by (eapply globals_lookup; [exact Hg | reflexivity]).
  assert (H4 : h !! bigFour = Some 4) by (eapply globals_lookup; [exact Hg | reflexivity]).
  unfold bind at 1. unfold NewInt, alloc.
  unfold bind at 1. unfold new, alloc.
  unfold bind at 1.
  assert (HM : Int_Mod (length (h ++ [v])) (length h) bigFour ((h ++ [v]) ++ [0])
               = Some (length (h ++ [v]), (h ++ [v]) ++ [v mod 4])).
  { apply wp_exact.
    eapply wp_Int_Mod_last; [heap_lookup | heap_lookup | lia |].
    split; reflexivity. }
  rewrite HM. unfold bind at 1.
  assert (HC : Int_Cmp (length (h ++ [v])) bigThree ((h ++ [v]) ++ [v mod 4])
               = Some (match v mod 4 ?= 3 with Lt => -1 | Eq => 0 | Gt => 1 end,
                       (h ++ [v]) ++ [v mod 4])).
  { apply wp_exact.
    eapply wp_Int_Cmp; [heap_lookup | heap_lookup |]. split; reflexivity. }
  rewrite HC. rewrite <- app_assoc. simpl app.
  destruct (Z.compare_spec (v mod 4) 3) as [Heq|Hlt|Hgt].
  - rewrite Heq. reflexivity.
  - destruct (Z.eqb_spec (v mod 4) 3); [lia | reflexivity].
  - destruct (Z.eqb_spec (v mod 4) 3); [lia | reflexivity].
Qed.

Lemma GenerateSlothPrime_sound_aux bits :
  (forall r v r', rand_Prime r bits = (inl v, r') ->
                  Z.prime v /\ BitLen v = bits) ->
  forall fuel r h res r' h',
    globals `prefix_of` h ->
    GenerateSlothPrime rng rand_Prime fuel bits r h
    = Some (Some ((res, None), r'), h') ->
    exists (pr : ptr) v,
      res = Some pr /\ h' !! pr = Some v /\
      Z.prime v /\ BitLen v = bits /\ v mod 4 = 3.
Proof.
  intros Horacle fuel.
  induction fuel as [|fuel IH]; intros r h res r' h' Hg Hrun; [discriminate|].
  destruct (rand_Prime r bits) as [[v|err] r1] eqn:Hdraw.
  - rewrite (GenerateSlothPrime_round fuel bits r h v r1 Hg Hdraw) in Hrun.
    destruct (Z.eqb_spec (v mod 4) 3) as [Hmod|Hmod].
    + injection Hrun as <- <- <-.
      destruct (Horacle r v r1 Hdraw) as [Hprime Hbits].
      exists (length h), v.
      split; [reflexivity|].
      split; [|split; [exact Hprime | split; [exact Hbits | exact Hmod]]].
      apply (list_lookup_middle h [v mod 4] v). reflexivity.
    + apply (IH r1 (h ++ [v; v mod 4]) res r' h'); [|exact Hrun].
      apply prefix_app_r. exact Hg.
  - simpl in Hrun. rewrite Hdraw in Hrun. discriminate.
Qed.

(** The loop returns as soon as a draw stops it. *)
Lemma GenerateSlothPrime_returns bits n :
  forall r h,
    globals `prefix_of` h ->
    stops rng rand_Prime bits (draws rng rand_Prime n bits r) = true ->
    exists res h',
      GenerateSlothPrime rng rand_Prime (S n) bits r h = Some (Some res, h').
Proof.
  induction n as [|n IH]; intros r h Hg Hstop.
  - simpl in Hstop. unfold stops in Hstop.
    destruct (rand_Prime r bits) as [[v|err] r1] eqn:Hdraw; simpl in Hstop.
    + rewrite (GenerateSlothPrime_round 0 bits r h v r1 Hg Hdraw), Hstop. eauto.
    + simpl. rewrite Hdraw. eauto.
  - destruct (rand_Prime r bits) as [[v|err] r1] eqn:Hdraw.
    + rewrite (GenerateSlothPrime_round (S n) bits r h v r1 Hg Hdraw).
      destruct (v mod 4 =? 3); [eauto|].
      apply IH; [apply prefix_app_r; exact Hg|].
      simpl in Hstop. rewrite Hdraw in Hstop. exact Hstop.
    + simpl. rewrite Hdraw. eauto.
Qed.

End GeneratorProofs.

(** C10. Whenever the random-prime capability hands back primes of the
    requested bit length, every value [GenerateSlothPrime] returns without
    error is a prime of that bit length and is 3 modulo 4. *)
Theorem GenerateSlothPrime_sound (rng : Type)
    (rand_Prime : rng -> Z -> (Z + string) * rng)
    bits fuel r h res r' h' :
  (forall r0 v r1, rand_Prime r0 bits = (inl v, r1) ->
                   Z.prime v /\ BitLen v = bits) ->
  globals `prefix_of` h ->
  GenerateSlothPrime rng rand_Prime fuel bits r h
  = Some (Some ((res, None), r'), h') ->
  exists (pr : ptr) v,
    res = Some pr /\ h' !! pr = Some v /\
    Z.prime v /\ BitLen v = bits /\ v mod 4 = 3.
Proof.
  intros Horacle Hg Hrun.
  exact (GenerateSlothPrime_sound_aux rng rand_Prime bits Horacle
           fuel r h res r' h' Hg Hrun).
Qed.

Lemma GenerateSlothPrime_sound_witness :
  (forall r0 v r1, demo_rand_Prime r0 4 = (inl v, r1) ->
                   Z.prime v /\ BitLen v = 4) /\
  globals `prefix_of` globals /\
  GenerateSlothPrime bool demo_rand_Prime 2 4 true globals
  = Some (Some ((Some 7%nat, None), false), globals ++ [13; 1; 11; 3]) /\
  exists (pr : ptr) v,
    Some 7%nat = Some pr /\ (globals ++ [13; 1; 11; 3]) !! pr = Some v /\
    Z.prime v /\ BitLen v = 4 /\ v mod 4 = 3.
Proof.
  assert (Horacle : forall r0 v r1, demo_rand_Prime r0 4 = (inl v, r1) ->
                                    Z.prime v /\ BitLen v = 4).
  { intros [|] v r1 [= <- <-]; (split; [apply is_prime_spec|]; reflexivity). }
  split; [exact Horacle|].
  split; [reflexivity|].
  split; [reflexivity|].
  apply (GenerateSlothPrime_sound bool demo_rand_Prime 4 2 true globals
           (Some 7%nat) false (globals ++ [13; 1; 11; 3])).
  - exact Horacle.
  - reflexivity.
  - reflexivity.
Defined.

(** * Further properties of the package *)

(** ** Arithmetic modulo a prime that is 3 modulo 4 *)

Lemma mod_eq_of_divide p a b : p <> 0 -> (p | a - b) -> a mod p = b mod p.
Proof.
  intros Hp [k Hk]. replace a with (b + k * p) by lia.
  apply Z.mod_add. exact Hp.
Qed.

Lemma mod_opp_opp p x : p <> 0 -> (- ((- x) mod p)) mod p = x mod p.
Proof.
  intros Hp. apply mod_eq_of_divide; [exact Hp|].
  exists (((- x) / p)). pose proof (Z.div_mod (- x) p Hp). lia.
Qed.

Lemma square_opp_mod p y : p <> 0 -> ((p - y) ^ 2) mod p = (y ^ 2) mod p.
Proof.
  intros Hp. apply mod_eq_of_divide; [exact Hp|].
  exists (p - 2 * y). rewrite !Z.pow_2_r. lia.
Qed.

(** A square root of 1 modulo a prime is 1 or -1. *)
Lemma square_one_mod p e :
  Z.prime p -> (e * e) mod p = 1 -> (p | e - 1) \/ (p | e + 1).
Proof.
  intros Hp He. pose proof (Z.prime_ge_2 p Hp) as Hp2.
  apply Z.divide_prime_mul; [exact Hp|].
  replace ((e - 1) * (e + 1)) with (e * e - 1) by lia.
  apply Z.mod_divide; [lia|].
  rewrite Zminus_mod, He, (Z.mod_small 1) by lia. reflexivity.
Qed.

(** The exponent [(p + 1) / 4] gives a square root up to sign: the square
    of [v ^ ((p + 1) / 4)] is [v] or [-v] modulo [p]. *)
Lemma sqrtExp_square p v :
  Z.prime p -> p mod 4 = 3 ->
  ((v ^ ((p + 1) / 4) mod p) ^ 2) mod p = v mod p \/
  ((v ^ ((p + 1) / 4) mod p) ^ 2) mod p = (- v) mod p.
Proof.
  intros Hp Hmod. pose proof (Z.prime_ge_2 p Hp) as Hp2.
  pose proof (Z.div_mod p 4 ltac:(lia)) as Hq. rewrite Hmod in Hq.
  set (q := p / 4) in *.
  assert (Hq0 : 0 <= q) by (apply Z.div_pos; lia).
  replace ((p + 1) / 4) with (q + 1).
  2:{ apply Z.div_unique with (r := 0); lia. }
  rewrite Z.mod_pow_l, <- Z.pow_mul_r by lia.
  replace ((q + 1) * 2) with (1 + (2 * q + 1)) by lia.
  rewrite Z.pow_add_r, Z.pow_1_r by lia.
  set (E := v ^ (2 * q + 1)).
  destruct (Z.eq_dec (v mod p) 0) as [Hz|Hnz].
  - left. rewrite <- Z.mul_mod_idemp_l, Hz by lia.
    rewrite Z.mul_0_l. apply Z.mod_0_l. lia.
  - assert (HE : (E * E) mod p = 1).
    { unfold E. rewrite <- Z.pow_add_r by lia.
      replace (2 * q + 1 + (2 * q + 1)) with (p - 1) by lia.
      apply Z.fermat_nz; assumption. }
    destruct (square_one_mod p E Hp HE) as [[k Hk]|[k Hk]].
    + left. apply mod_eq_of_divide; [lia|]. exists (v * k).
      replace (v * E - v) with (v * (E - 1)) by lia. rewrite Hk. lia.
    + right. apply mod_eq_of_divide; [lia|]. exists (v * k).
      replace (v * E - - v) with (v * (E + 1)) by lia. rewrite Hk. lia.
Qed.

(** ** Ranges of the steps *)

Lemma sigma_val_range p x : 0 < p -> 0 <= sigma_val p x < p.
Proof.
  intros Hp. unfold sigma_val. rewrite Z.abs_eq by lia.
  apply Z.mod_pos_bound. exact Hp.
Qed.

Lemma sigma_val_field p x :
  3 <= p -> Z.even p = false -> 0 <= x < p ->
  sigma_val p x = if Z.odd x then x + 1 else if x =? 0 then p - 1 else x - 1.
Proof.
  intros Hp Hodd Hx. unfold sigma_val. rewrite Z.abs_eq by lia.
  rewrite Z.bit0_odd.
  assert (Hpo : Z.odd p = true) by (rewrite <- Z.negb_even, Hodd; reflexivity).
  destruct (Z.odd x) eqn:Hox.
  - apply Z.mod_small. split; [lia|].
    destruct (Z.eq_dec (x + 1) p) as [Heq|?]; [|lia].
    rewrite <- Heq, Z.odd_add, Hox in Hpo. discriminate.
  - destruct (Z.eqb_spec x 0) as [->|Hne].
    + symmetry. apply Z.mod_unique with (q := -1); lia.
    + apply Z.mod_small. lia.
Qed.

Lemma sigma_val_nonzero p x :
  3 <= p -> Z.even p = false -> 0 <= x < p -> 1 <= sigma_val p x < p.
Proof.
  intros Hp Hodd Hx. pose proof (sigma_val_range p x ltac:(lia)) as Hr.
  rewrite (sigma_val_field p x Hp Hodd Hx) in *.
  destruct (Z.odd x) eqn:Hox; [lia|].
  destruct (Z.eqb_spec x 0) as [->|Hne]; [lia|].
  assert (x <> 1) by (intros ->; discriminate). lia.
Qed.

(** The swap of the negated swap is the negation. *)
Lemma sigma_val_opp_sigma p x :
  3 <= p -> Z.even p = false -> 1 <= x < p ->
  sigma_val p ((- sigma_val p x) mod p) = p - x.
Proof.
  intros Hp Hodd Hx.
  assert (Hpo : Z.odd p = true) by (rewrite <- Z.negb_even, Hodd; reflexivity).
  pose proof (sigma_val_nonzero p x Hp Hodd ltac:(lia)) as Hs.
  assert (Hneg : (- sigma_val p x) mod p = p - sigma_val p x).
  { symmetry. apply Z.mod_unique with (q := -1); lia. }
  rewrite Hneg.
  rewrite (sigma_val_field p (p - sigma_val p x) Hp Hodd ltac:(lia)).
  rewrite (sigma_val_field p x Hp Hodd ltac:(lia)) in *.
  destruct (Z.odd x) eqn:Hox.
  - rewrite Z.odd_sub, Hpo, Z.odd_add, Hox. simpl. lia.
  - destruct (Z.eqb_spec x 0) as [->|Hne]; [lia|].
    rewrite Z.odd_sub, Hpo, Z.odd_sub, Hox. simpl.
    destruct (Z.eqb_spec (p - (x - 1)) 0); lia.
Qed.

Lemma root_val_range p x : 0 < p -> 0 <= root_val p x < p.
Proof.
  intros Hp. unfold root_val. rewrite !Z.abs_eq by lia.
  apply Z.mod_pos_bound. exact Hp.
Qed.

Lemma rho_val_range p x : 0 < p -> 0 <= rho_val p x < p.
Proof.
  intros Hp. unfold rho_val. pose proof (root_val_range p x Hp) as Hr.
  destruct (Z.testbit (root_val p x) 0) eqn:Hbit; [|exact Hr].
  assert (root_val p x <> 0) by (intros Hz; rewrite Hz in Hbit; discriminate).
  lia.
Qed.

(** ** The square-root round trip, up to sign *)

Lemma rhoInverse_rho_val p x :
  Z.prime p -> p mod 4 = 3 ->
  rhoInverse_val p (rho_val p x) = x mod p \/
  rhoInverse_val p (rho_val p x) = (- x) mod p.
Proof.
  intros Hp Hmod. pose proof (Z.prime_ge_2 p Hp) as Hp2.
  assert (Hsq : rhoInverse_val p (rho_val p x) = (root_val p x ^ 2) mod p).
  { unfold rhoInverse_val, rho_val. rewrite Z.abs_eq by lia.
    destruct (Z.testbit (root_val p x) 0); [|reflexivity].
    apply square_opp_mod. lia. }
  rewrite Hsq. unfold root_val. rewrite !Z.abs_eq by lia.
  destruct (jacobi_val x p =? 1).
  - apply sqrtExp_square; assumption.
  - destruct (sqrtExp_square p ((- x) mod p) Hp Hmod) as [H|H]; rewrite H.
    + right. apply Z.mod_mod. lia.
    + left. apply mod_opp_opp. lia.
Qed.

Lemma rho_val_nonzero p x :
  Z.prime p -> p mod 4 = 3 -> 1 <= x < p -> 1 <= rho_val p x < p.
Proof.
  intros Hp Hmod Hx. pose proof (Z.prime_ge_2 p Hp) as Hp2.
  pose proof (rho_val_range p x ltac:(lia)) as Hr.
  enough (rho_val p x <> 0) by lia. intros Hz.
  pose proof (rhoInverse_rho_val p x Hp Hmod) as Hrt. rewrite Hz in Hrt.
  unfold rhoInverse_val in Hrt. rewrite Z.abs_eq in Hrt by lia.
  change (0 ^ 2) with 0 in Hrt. rewrite Z.mod_0_l in Hrt by lia.
  destruct Hrt as [H|H].
  - rewrite Z.mod_small in H; lia.
  - assert (Hn : (- x) mod p = p - x).
    { symmetry. apply Z.mod_unique with (q := -1); lia. }
    lia.
Qed.

Lemma TauInverse_val_opp p y : p <> 0 ->
  TauInverse_val p (p - y) = TauInverse_val p y.
Proof.
  intros Hp. unfold TauInverse_val, rhoInverse_val.
  destruct (Z.abs_eq_or_opp p) as [-> | Ha].
  - rewrite square_opp_mod by exact Hp. reflexivity.
  - f_equal. apply mod_eq_of_divide; [lia|].
    exists (2 * y - p). rewrite !Z.pow_2_r. lia.
Qed.

Lemma TauInverse_Tau_val p x :
  Z.prime p -> p mod 4 = 3 -> 1 <= x < p ->
  TauInverse_val p (Tau_val p x) = x \/
  TauInverse_val p (Tau_val p x) = p - x.
Proof.
  intros Hp Hmod Hx. pose proof (Z.prime_ge_2 p Hp) as Hp2.
  pose proof (mod_4_3_odd p Hmod) as Hodd.
  assert (Hp3 : 3 <= p).
  { destruct (Z.eq_dec p 2) as [->|?]; [discriminate | lia]. }
  pose proof (sigma_val_nonzero p x Hp3 Hodd ltac:(lia)) as Hs.
  unfold TauInverse_val, Tau_val.
  destruct (rhoInverse_rho_val p (sigma_val p x) Hp Hmod) as [H|H]; rewrite H.
  - left. rewrite Z.mod_small by lia.
    apply sigma_val_involutive; [lia | exact Hodd | exact Hx].
  - right. apply sigma_val_opp_sigma; assumption.
Qed.

Lemma Tau_val_nonzero p x :
  Z.prime p -> p mod 4 = 3 -> 0 <= x < p -> 1 <= Tau_val p x < p.
Proof.
  intros Hp Hmod Hx. pose proof (Z.prime_ge_2 p Hp) as Hp2.
  pose proof (mod_4_3_odd p Hmod) as Hodd.
  assert (Hp3 : 3 <= p).
  { destruct (Z.eq_dec p 2) as [->|?]; [discriminate | lia]. }
  apply rho_val_nonzero; [assumption | assumption|].
  apply sigma_val_nonzero; assumption.
Qed.

(** However many rounds, undoing them restores the start up to sign. *)
Lemma iter_TauInverse_Tau_val p n :
  Z.prime p -> p mod 4 = 3 ->
  forall x, 1 <= x < p ->
    iter_val n (TauInverse_val p) (iter_val n (Tau_val p) x) = x \/
    iter_val n (TauInverse_val p) (iter_val n (Tau_val p) x) = p - x.
Proof.
  intros Hp Hmod. pose proof (Z.prime_ge_2 p Hp) as Hp2.
  induction n as [|n IH]; intros x Hx; [left; reflexivity|].
  rewrite iter_val_S_r.
  change (iter_val (S n) (Tau_val p) x) with (iter_val n (Tau_val p) (Tau_val p x)).
  pose proof (Tau_val_nonzero p x Hp Hmod ltac:(lia)) as Ht.
  destruct (IH (Tau_val p x) Ht) as [H|H]; rewrite H.
  - apply TauInverse_Tau_val; assumption.
  - rewrite TauInverse_val_opp by lia. apply TauInverse_Tau_val; assumption.
Qed.

(** ** The digest is never empty *)

Lemma round_length st kw : length st = 8%nat -> length (SHA256.round st kw) = 8%nat.
Proof.
  intros Hl. do 9 (destruct st as [|? st]; try discriminate). reflexivity.
Qed.

Lemma fold_round_length kws :
  forall st, length st = 8%nat ->
             length (fold_left SHA256.round kws st) = 8%nat.
Proof.
  induction kws as [|kw kws IH]; intros st Hl; [exact Hl|].
  simpl. apply IH, round_length, Hl.
Qed.

Lemma compress_length st block :
  length st = 8%nat -> length (SHA256.compress st block) = 8%nat.
Proof.
  intros Hl. unfold SHA256.compress.
  rewrite length_map, length_combine, fold_round_length, Hl by exact Hl.
  reflexivity.
Qed.

Lemma blocks_length fuel :
  forall st ws, length st = 8%nat ->
                length (SHA256.blocks fuel st ws) = 8%nat.
Proof.
  induction fuel as [|fuel IH]; intros st ws Hl; [exact Hl|].
  simpl. destruct ws; [exact Hl|]. apply IH, compress_length, Hl.
Qed.

Lemma concat_word_bytes_length l :
  length (concat (map SHA256.word_bytes l)) = (4 * length l)%nat.
Proof.
  induction l as [|w l IH]; [reflexivity|].
  simpl. rewrite IH. lia.
Qed.

Lemma sum256_length msg : length (SHA256.sum256 msg) = 32%nat.
Proof.
  unfold SHA256.sum256.
  rewrite concat_word_bytes_length, blocks_length; reflexivity.
Qed.

Lemma SHA256_Sum_nonnil b :
  Hash_Sum (Hash_Write (SHA256.New tt) b) None
  = Some (SHA256.sum256 (slice_data b)).
Proof.
  unfold Hash_Sum, Hash_Write, SHA256.New. simpl.
  pose proof (sum256_length (slice_data b)) as Hl.
  destruct (SHA256.sum256 (slice_data b)); [discriminate | reflexivity].
Qed.

(** ** Verify past its checks *)

Lemma Verify_spec s p h i d (w : ptr) v :
  ready s p h -> 0 < p -> HashFunc s = SHA256.New ->
  h !! w = Some v -> 0 <= v < p ->
  d = slice_data (expected_digest s v) ->
  wp (Verify s (Some i) (Some d) (Some w)) h (fun r h' =>
    h `prefix_of` h' /\
    r = if iter_val (Z.to_nat (Iterations s)) (TauInverse_val p) v
           =? w0_val s p (Some i)
        then (true, None)
        else (false,
              Some "verification failed: reversed witness does not match initial value"%string)).
Proof.
  intros Hr Hp HSha Hw Hv Hd. pose proof Hr as (Hg & HP & He).
  assert (Hne : p <> 0) by lia.
  unfold Verify.
  apply wp_bind, (wp_Int_Cmp _ _ _ v p); [exact Hw | exact HP |].
  assert (Hc : match v ?= p with Lt => -1 | Eq => 0 | Gt => 1 end = -1).
  { destruct (Z.compare_spec v p); [lia | reflexivity | lia]. }
  rewrite Hc. change (0 <=? -1) with false. cbv iota.
  apply wp_bind, (wp_Int_Sign _ _ v); [exact Hw|].
  assert (Hs : (Z.sgn v <? 0) = false).
  { apply Z.ltb_ge, Z.sgn_nonneg. lia. }
  rewrite Hs. change (false || false) with false. cbv iota.
  apply wp_bind, (wp_Int_Bytes _ _ v); [exact Hw|].
  fold (Bytes_val v). fold (expected_digest s v).
  assert (Heq : bytes_Equal (Some d) (expected_digest s v) = true).
  { unfold bytes_Equal. apply list_byte_eqb_spec. exact Hd. }
  rewrite Heq. change (negb true) with false. cbv iota.
  apply wp_bind, wp_new.
  apply wp_bind.
  eapply wp_Int_Set_last; [heap_lookup|].
  apply wp_bind.
  eapply wp_mono.
  { apply (iterate_spec s p (TauInverse s) (TauInverse_val p)) with (vx := v).
    - intros h0 x vx Hr0 Hx. apply TauInverse_spec; assumption.
    - eapply ready_mono; [exact Hr | apply prefix_app_r; reflexivity].
    - heap_lookup. }
  intros wCheck h1 [Hpre HwCheck]. cbv beta.
  apply wp_bind, wp_new.
  apply wp_bind, wp_Int_SetBytes_last.
  apply wp_bind.
  eapply wp_Int_Mod_last;
    [heap_lookup | apply lookup_app_l_Some;
                   eapply prefix_lookup_Some; [exact HP|];
                   etransitivity; [|exact Hpre]; apply prefix_app_r; reflexivity
     | exact Hne |].
  set (u := (be_to_Z _ mod Z.abs p)).
  assert (Hu : u = w0_val s p (Some i)).
  { subst u. unfold w0_val. rewrite HSha. reflexivity. }
  clearbody u. subst u.
  set (rev := iter_val (Z.to_nat (Iterations s)) (TauInverse_val p) v) in *.
  apply wp_bind, (wp_Int_Cmp _ _ _ rev (w0_val s p (Some i)));
    [heap_lookup | heap_lookup |].
  assert (Hframe : h `prefix_of` h1 ++ [w0_val s p (Some i)]).
  { apply prefix_app_r. etransitivity; [|exact Hpre].
    apply prefix_app_r. reflexivity. }
  destruct (Z.compare_spec rev (w0_val s p (Some i))) as [Heq'|Hlt|Hgt].
  - destruct (Z.eqb_spec rev (w0_val s p (Some i))); [|contradiction].
    apply wp_ret. split; [exact Hframe | reflexivity].
  - destruct (Z.eqb_spec rev (w0_val s p (Some i))); [lia|].
    apply wp_ret. split; [exact Hframe | reflexivity].
  - destruct (Z.eqb_spec rev (w0_val s p (Some i))); [lia|].
    apply wp_ret. split; [exact Hframe | reflexivity].
Qed.

(** ** Verify, case by case *)

Lemma Verify_refines s p h input hash (w : ptr) v :
  ready s p h -> 0 < p -> HashFunc s = SHA256.New -> h !! w = Some v ->
  wp (Verify s input hash (Some w)) h (fun r h' =>
    h `prefix_of` h' /\ r = Verify_val s p input hash (Some v)).
Proof.
  intros Hr Hp HSha Hw. pose proof Hr as (Hg & HP & He).
  destruct input as [i|]; [|apply wp_ret; split; reflexivity].
  destruct hash as [d|]; [|apply wp_ret; split; reflexivity].
  unfold Verify_val.
  destruct (Z.leb_spec p v) as [Hge|Hlt].
  { unfold Verify.
    apply wp_bind, (wp_Int_Cmp _ _ _ v p); [exact Hw | exact HP |].
    destruct (Z.compare_spec v p) as [?|?|?]; [| lia |];
      simpl; apply wp_ret; split; reflexivity. }
  destruct (Z.ltb_spec v 0) as [Hneg|Hnn].
  { unfold Verify.
    apply wp_bind, (wp_Int_Cmp _ _ _ v p); [exact Hw | exact HP |].
    destruct (Z.compare_spec v p) as [?|?|?]; [lia | | lia].
    change (0 <=? -1) with false. cbv iota.
    apply wp_bind, (wp_Int_Sign _ _ v); [exact Hw|].
    assert (Hs : (Z.sgn v <? 0) = true).
    { apply Z.ltb_lt, Z.sgn_neg_iff. lia. }
    rewrite Hs. simpl. apply wp_ret. split; reflexivity. }
  change (false || false) with false. cbv iota.
  destruct (bytes_Equal (Some d) (expected_digest s v)) eqn:Heq.
  - change (negb true) with false. cbv iota.
    apply (Verify_spec s p h i d w v Hr Hp HSha Hw ltac:(lia)).
    apply list_byte_eqb_spec. exact Heq.
  - change (negb false) with true. cbv iota.
    unfold Verify.
    apply wp_bind, (wp_Int_Cmp _ _ _ v p); [exact Hw | exact HP |].
    destruct (Z.compare_spec v p) as [?|?|?]; [lia | | lia].
    change (0 <=? -1) with false. cbv iota.
    apply wp_bind, (wp_Int_Sign _ _ v); [exact Hw|].
    assert (Hs : (Z.sgn v <? 0) = false).
    { apply Z.ltb_ge, Z.sgn_nonneg. lia. }
    rewrite Hs. change (false || false) with false. cbv iota.
    apply wp_bind, (wp_Int_Bytes _ _ v); [exact Hw|].
    fold (Bytes_val v). fold (expected_digest s v).
    rewrite Heq. apply wp_ret. split; reflexivity.
Qed.

Lemma Verify_refines_nil s p h input hash :
  Verify s input hash None h = Some (Verify_val s p input hash None, h).
Proof. destruct input, hash; reflexivity. Qed.

Lemma Verify_val_consistent s p input hash witness :
  fst (Verify_val s p input hash witness) = true <->
  snd (Verify_val s p input hash witness) = None.
Proof.
  unfold Verify_val.
  destruct input, hash, witness; simpl; try (split; discriminate).
  repeat match goal with
         | |- context [if ?b then _ else _] => destruct b
         end; simpl; split; congruence.
Qed.

Lemma constructed_facts s h p :
  constructed s h -> h !! P s = Some p ->
  ready s p h /\ Z.prime p /\ p mod 4 = 3 /\ 3 <= p /\ Z.even p = false /\
  0 < Iterations s /\ HashFunc s = SHA256.New.
Proof.
  intros Hc HP.
  destruct (constructed_valid s h Hc) as (q & Hr & Hprime & Hmod & Hit & HSha).
  pose proof Hr as (_ & HP' & _).
  assert (q = p) as -> by congruence.
  destruct (constructed_modulus s h p Hc HP) as (_ & Hp3 & Hodd).
  repeat (split; [assumption|]). assumption.
Qed.

Lemma iter_Tau_val_range p n :
  Z.prime p -> p mod 4 = 3 ->
  forall x, 0 <= x < p -> 0 <= iter_val n (Tau_val p) x < p.
Proof.
  intros Hp Hmod. induction n as [|n IH]; intros x Hx; [exact Hx|].
  simpl. apply IH. pose proof (Tau_val_nonzero p x Hp Hmod Hx). lia.
Qed.

Lemma w0_val_range s p input : 0 < p -> 0 <= w0_val s p input < p.
Proof.
  intros Hp. unfold w0_val. rewrite Z.abs_eq by lia.
  apply Z.mod_pos_bound. exact Hp.
Qed.

Lemma witness_val_field s p input :
  Z.prime p -> p mod 4 = 3 -> 0 < Iterations s ->
  1 <= witness_val s p input < p.
Proof.
  intros Hp Hmod Hit. pose proof (Z.prime_ge_2 p Hp) as Hp2.
  unfold witness_val.
  destruct (Z.to_nat (Iterations s)) as [|n] eqn:Hn; [lia|].
  rewrite iter_val_S_r. apply Tau_val_nonzero; [assumption | assumption|].
  apply iter_Tau_val_range; [assumption | assumption|].
  apply w0_val_range. lia.
Qed.

(** ** Properties of the permutation steps *)

(** X1. On every instance [New] returns, [sigma] sends a field element to a
    non-zero field element: for [x] in [0, p-1] the result is in
    [1, p-1]. *)
Theorem sigma_field_nonzero s h p (x : ptr) vx :
  constructed s h -> h !! P s = Some p -> h !! x = Some vx -> 0 <= vx < p ->
  exists v, value_of (sigma s x) h = Some v /\ 1 <= v < p.
Proof.
  intros Hc HP Hx Hv.
  destruct (constructed_facts s h p Hc HP) as (Hr & _ & _ & Hp3 & Hodd & _).
  exists (sigma_val p vx). split.
  - apply wp_value_of, sigma_spec; [exact Hr | lia | exact Hx].
  - apply sigma_val_nonzero; assumption.
Qed.

Lemma sigma_field_nonzero_witness :
  constructed demo_sloth (demo_heap ++ [0]) /\
  (demo_heap ++ [0]) !! P demo_sloth = Some 7 /\
  (demo_heap ++ [0]) !! 8%nat = Some 0 /\
  0 <= 0 < 7 /\
  exists v, value_of (sigma demo_sloth 8%nat) (demo_heap ++ [0]) = Some v /\
            1 <= v < 7.
Proof.
  split; [apply demo_constructed_later|].
  split; [reflexivity|]. split; [reflexivity|]. split; [lia|].
  apply (sigma_field_nonzero demo_sloth (demo_heap ++ [0]) 7 8%nat 0).
  - apply demo_constructed_later.
  - reflexivity.
  - reflexivity.
  - lia.
Defined.

Lemma sigma_twice_field_witness :
  constructed demo_sloth (demo_heap ++ [4]) /\
  (demo_heap ++ [4]) !! P demo_sloth = Some 7 /\
  (demo_heap ++ [4]) !! 8%nat = Some 4 /\
  0 <= 4 < 7 /\
  value_of (y <- sigma demo_sloth 8%nat;; sigmaInverse demo_sloth y)
           (demo_heap ++ [4])
  = Some (if 4 =? 0 then 7 - 2 else 4).
Proof.
  split; [apply demo_constructed_later|].
  split; [reflexivity|]. split; [reflexivity|]. split; [lia|].
  apply (sigma_twice_field demo_sloth (demo_heap ++ [4]) 7 8%nat 4).
  - apply demo_constructed_later.
  - reflexivity.
  - reflexivity.
  - lia.
Defined.

Lemma rhoInverse_odd_witness :
  constructed demo_sloth (demo_heap ++ [3]) /\
  (demo_heap ++ [3]) !! P demo_sloth = Some 7 /\
  (demo_heap ++ [3]) !! 8%nat = Some 3 /\
  0 < 3 < 7 /\ Z.testbit 3 0 = true /\
  value_of (rhoInverse demo_sloth 8%nat) (demo_heap ++ [3])
  = Some (3 ^ 2 mod 7) /\
  3 ^ 2 mod 7 <> (- 3 ^ 2) mod 7.
Proof.
  split; [apply demo_constructed_later|].
  split; [reflexivity|]. split; [reflexivity|]. split; [lia|].
  split; [reflexivity|].
  apply (rhoInverse_odd demo_sloth (demo_heap ++ [3]) 7 8%nat 3).
  - apply demo_constructed_later.
  - reflexivity.
  - reflexivity.
  - lia.
  - reflexivity.
Defined.

Lemma Tau_TauInverse_collision_witness :
  constructed demo_sloth (demo_heap ++ [0; 5]) /\
  (demo_heap ++ [0; 5]) !! P demo_sloth = Some 7 /\
  (demo_heap ++ [0; 5]) !! 8%nat = Some 0 /\
  (demo_heap ++ [0; 5]) !! 9%nat = Some (7 - 2) /\
  0 <> 7 - 2 /\
  value_of (y <- Tau demo_sloth 8%nat;; TauInverse demo_sloth y)
           (demo_heap ++ [0; 5])
  = value_of (y <- Tau demo_sloth 9%nat;; TauInverse demo_sloth y)
             (demo_heap ++ [0; 5]).
Proof.
  split; [apply demo_constructed_later|].
  split; [reflexivity|]. split; [reflexivity|]. split; [reflexivity|].
  apply (Tau_TauInverse_collision demo_sloth (demo_heap ++ [0; 5]) 7
           8%nat 9%nat).
  - apply demo_constructed_later.
  - reflexivity.
  - reflexivity.
  - reflexivity.
Defined.

Lemma rho_rhoInverse_spec s h p (x : ptr) vx :
  constructed s h -> h !! P s = Some p -> h !! x = Some vx ->
  value_of (y <- rho s x;; rhoInverse s y) h
  = Some (rhoInverse_val p (rho_val p vx)).
Proof.
  intros Hc HP Hx.
  destruct (constructed_facts s h p Hc HP) as (Hr & _ & _ & Hp3 & Hodd & _).
  apply wp_value_of, wp_bind.
  eapply wp_mono; [apply (rho_spec s p h x vx Hr ltac:(lia) Hodd Hx)|].
  intros y h1 [Hpre Hy]. cbv beta.
  eapply wp_mono;
    [apply (rhoInverse_spec s p h1 y (rho_val p vx));
       [eapply ready_mono; eassumption | lia | exact Hy]|].
  intros r h2 Hpt. eapply points_to_trans; eassumption.
Qed.

(** X6. On every instance [New] returns, the square root followed by its
    inverse restores a field element up to sign: [rhoInverse(rho(x))] is
    [x] or [(-x) mod p]. *)
Theorem rho_rhoInverse_up_to_sign s h p (x : ptr) vx :
  constructed s h -> h !! P s = Some p -> h !! x = Some vx -> 0 <= vx < p ->
  value_of (y <- rho s x;; rhoInverse s y) h = Some vx \/
  value_of (y <- rho s x;; rhoInverse s y) h = Some ((- vx) mod p).
Proof.
  intros Hc HP Hx Hv.
  destruct (constructed_facts s h p Hc HP) as (_ & Hprime & Hmod & _).
  rewrite (rho_rhoInverse_spec s h p x vx Hc HP Hx).
  destruct (rhoInverse_rho_val p vx Hprime Hmod) as [H|H]; rewrite H.
  - left. rewrite Z.mod_small by lia. reflexivity.
  - right. reflexivity.
Qed.

Lemma rho_rhoInverse_up_to_sign_witness :
  constructed demo_sloth (demo_heap ++ [3]) /\
  (demo_heap ++ [3]) !! P demo_sloth = Some 7 /\
  (demo_heap ++ [3]) !! 8%nat = Some 3 /\
  0 <= 3 < 7 /\
  (value_of (y <- rho demo_sloth 8%nat;; rhoInverse demo_sloth y)
            (demo_heap ++ [3]) = Some 3 \/
   value_of (y <- rho demo_sloth 8%nat;; rhoInverse demo_sloth y)
            (demo_heap ++ [3]) = Some ((- 3) mod 7)).
Proof.
  split; [apply demo_constructed_later|].
  split; [reflexivity|]. split; [reflexivity|]. split; [lia|].
  apply (rho_rhoInverse_up_to_sign demo_sloth (demo_heap ++ [3]) 7 8%nat 3).
  - apply demo_constructed_later.
  - reflexivity.
  - reflexivity.
  - lia.
Defined.

(** X7. On every instance [New] returns, one forward step followed by one
    inverse step restores a non-zero field element up to sign:
    [TauInverse(Tau(x))] is [x] or [p - x] for [x] in [1, p-1]. *)
Theorem Tau_TauInverse_up_to_sign s h p (x : ptr) vx :
  constructed s h -> h !! P s = Some p -> h !! x = Some vx -> 1 <= vx < p ->
  value_of (y <- Tau s x;; TauInverse s y) h = Some vx \/
  value_of (y <- Tau s x;; TauInverse s y) h = Some (p - vx).
Proof.
  intros Hc HP Hx Hv.
  destruct (constructed_facts s h p Hc HP) as (_ & Hprime & Hmod & _).
  rewrite (Tau_TauInverse_spec s h p x vx Hc HP Hx).
  destruct (TauInverse_Tau_val p vx Hprime Hmod Hv) as [H|H]; rewrite H;
    [left | right]; reflexivity.
Qed.

Lemma Tau_TauInverse_up_to_sign_witness :
  constructed demo_sloth (demo_heap ++ [4]) /\
  (demo_heap ++ [4]) !! P demo_sloth = Some 7 /\
  (demo_heap ++ [4]) !! 8%nat = Some 4 /\
  1 <= 4 < 7 /\
  (value_of (y <- Tau demo_sloth 8%nat;; TauInverse demo_sloth y)
            (demo_heap ++ [4]) = Some 4 \/
   value_of (y <- Tau demo_sloth 8%nat;; TauInverse demo_sloth y)
            (demo_heap ++ [4]) = Some (7 - 4)).
Proof.
  split; [apply demo_constructed_later|].
  split; [reflexivity|]. split; [reflexivity|]. split; [lia|].
  apply (Tau_TauInverse_up_to_sign demo_sloth (demo_heap ++ [4]) 7 8%nat 4).
  - apply demo_constructed_later.
  - reflexivity.
  - reflexivity.
  - lia.
Defined.

(** ** Properties of Compute and Verify *)

(** X4. On every instance [New] returns and every input, the witness
    [Compute] returns is a non-zero field element: its value is in
    [1, p-1], so it is never refused by the range check of [Verify]. *)
Theorem Compute_witness_in_field s h p input :
  constructed s h -> h !! P s = Some p ->
  exists hash (w : ptr) h' v,
    Compute s input h = Some ((hash, w, None), h') /\
    h' !! w = Some v /\ 1 <= v < p.
Proof.
  intros Hc HP.
  destruct (constructed_facts s h p Hc HP)
    as (Hr & Hprime & Hmod & Hp3 & Hodd & Hit & _).
  destruct (wp_run _ _ _ (Compute_spec s p h input Hr ltac:(lia) Hodd))
    as (r & h' & HC & _ & w & -> & Hw).
  exists (digest_val s input (witness_val s p input)), w, h',
         (witness_val s p input).
  split; [exact HC|]. split; [exact Hw|].
  apply witness_val_field; assumption.
Qed.

Lemma Compute_witness_in_field_witness :
  constructed demo_sloth demo_heap /\
  demo_heap !! P demo_sloth = Some 7 /\
  exists hash (w : ptr) h' v,
    Compute demo_sloth (Some (list_byte_of_string "d")) demo_heap
      = Some ((hash, w, None), h') /\
    h' !! w = Some v /\ 1 <= v < 7.
Proof.
  split; [exact demo_constructed|]. split; [reflexivity|].
  apply (Compute_witness_in_field demo_sloth demo_heap 7
           (Some (list_byte_of_string "d"))).
  - exact demo_constructed.
  - reflexivity.
Defined.

(** X12. [Compute] never writes to an integer that was in the store before
    the call: every cell keeps its value, the instance's modulus and
    square-root exponent among them, and the instance is as usable after the
    call as before. *)
Theorem Compute_preserves_store s h input :
  constructed s h ->
  exists r h',
    Compute s input h = Some (r, h') /\
    (forall (x : ptr) v, h !! x = Some v -> h' !! x = Some v) /\
    constructed s h'.
Proof.
  intros Hc.
  destruct (constructed_valid s h Hc) as (p & Hr & [Hp1 _] & Hmod & _).
  pose proof (mod_4_3_odd p Hmod) as Hodd.
  destruct (wp_run _ _ _ (Compute_spec s p h input Hr ltac:(lia) Hodd))
    as (r & h' & HC & Hpre & _).
  exists r, h'. split; [exact HC|]. split.
  - intros x v Hx. eapply prefix_lookup_Some; eassumption.
  - eapply constructed_mono; eassumption.
Qed.

Lemma Compute_preserves_store_witness :
  constructed demo_sloth demo_heap /\
  exists r h',
    Compute demo_sloth (Some (list_byte_of_string "d")) demo_heap
      = Some (r, h') /\
    (forall (x : ptr) v, demo_heap !! x = Some v -> h' !! x = Some v) /\
    constructed demo_sloth h'.
Proof.
  split; [exact demo_constructed|].
  apply (Compute_preserves_store demo_sloth demo_heap
           (Some (list_byte_of_string "d"))).
  exact demo_constructed.
Defined.

(** X9. On every instance [New] returns, [Verify] returns for all
    arguments (nil or not, whatever the witness's value), leaves every
    integer of the store as it was, and answers [true] exactly when it
    returns no error. *)
Theorem Verify_ok_iff_no_error s h input hash (witness : option ptr) :
  constructed s h ->
  (forall w : ptr, witness = Some w -> is_Some (h !! w)) ->
  exists r h',
    Verify s input hash witness h = Some (r, h') /\
    (forall (x : ptr) v, h !! x = Some v -> h' !! x = Some v) /\
    (fst r = true <-> snd r = None).
Proof.
  intros Hc Hwit.
  destruct (constructed_valid s h Hc) as (p & Hr & [Hp1 _] & _ & _ & HSha).
  destruct witness as [w|].
  - destruct (Hwit w eq_refl) as [v Hw].
    destruct (wp_run _ _ _
                (Verify_refines s p h input hash w v Hr ltac:(lia) HSha Hw))
      as (r & h' & HV & Hpre & ->).
    exists (Verify_val s p input hash (Some v)), h'.
    split; [exact HV|]. split.
    + intros x v' Hx. eapply prefix_lookup_Some; eassumption.
    + apply Verify_val_consistent.
  - exists (Verify_val s p input hash None), h.
    split; [apply Verify_refines_nil|]. split.
    + intros x v Hx. exact Hx.
    + apply Verify_val_consistent.
Qed.

Lemma Verify_ok_iff_no_error_witness :
  constructed demo_sloth (demo_heap ++ [9]) /\
  (forall w : ptr, Some 8%nat = Some w -> is_Some ((demo_heap ++ [9]) !! w)) /\
  exists r h',
    Verify demo_sloth (Some []) (Some []) (Some 8%nat) (demo_heap ++ [9])
      = Some (r, h') /\
    (forall (x : ptr) v,
        (demo_heap ++ [9]) !! x = Some v -> h' !! x = Some v) /\
    (fst r = true <-> snd r = None).
Proof.
  assert (Hw : forall w : ptr, Some 8%nat = Some w ->
                               is_Some ((demo_heap ++ [9]) !! w)).
  { intros w [= <-]. exists 9. reflexivity. }
  split; [apply demo_constructed_later|]. split; [exact Hw|].
  apply (Verify_ok_iff_no_error demo_sloth (demo_heap ++ [9])
           (Some []) (Some []) (Some 8%nat)).
  - apply demo_constructed_later.
  - exact Hw.
Defined.

(** X8. On every instance [New] returns: given a non-nil input, a witness
    in [0, p-1] and the digest of that witness, [Verify] answers
    [(true, nil)] exactly when [Iterations] inverse steps lead from the
    witness to the hash of the input reduced modulo [p], and
    [(false, "verification failed ...")] otherwise. *)
Theorem Verify_accepts_iff s h p i hash (w : ptr) v :
  constructed s h -> h !! P s = Some p -> h !! w = Some v -> 0 <= v < p ->
  hash <> None -> slice_data hash = slice_data (expected_digest s v) ->
  exists r h',
    Verify s (Some i) hash (Some w) h = Some (r, h') /\
    (r = (true, None) <->
     iter_val (Z.to_nat (Iterations s)) (TauInverse_val p) v
     = w0_val s p (Some i)) /\
    (r = (true, None) \/
     r = (false,
          Some "verification failed: reversed witness does not match initial value"%string)).
Proof.
  intros Hc HP Hw Hv Hnil Hd.
  destruct (constructed_facts s h p Hc HP) as (Hr & _ & _ & Hp3 & _ & _ & HSha).
  destruct hash as [d|]; [|contradiction]. simpl in Hd.
  destruct (wp_run _ _ _ (Verify_spec s p h i d w v Hr ltac:(lia) HSha Hw Hv Hd))
    as (r & h' & HV & _ & ->).
  eexists _, h'. split; [exact HV|].
  destruct (Z.eqb_spec (iter_val (Z.to_nat (Iterations s)) (TauInverse_val p) v)
                       (w0_val s p (Some i))) as [Heq|Hne].
  - split; [|left; reflexivity]. split; [intros _; exact Heq | reflexivity].
  - split; [|right; reflexivity]. split; [discriminate | contradiction].
Qed.

Lemma Verify_accepts_iff_witness :
  constructed demo_sloth (demo_heap ++ [4]) /\
  (demo_heap ++ [4]) !! P demo_sloth = Some 7 /\
  (demo_heap ++ [4]) !! 8%nat = Some 4 /\
  0 <= 4 < 7 /\
  expected_digest demo_sloth 4 <> None /\
  slice_data (expected_digest demo_sloth 4)
  = slice_data (expected_digest demo_sloth 4) /\
  exists r h',
    Verify demo_sloth (Some (list_byte_of_string "a"))
           (expected_digest demo_sloth 4) (Some 8%nat) (demo_heap ++ [4])
    = Some (r, h') /\
    (r = (true, None) <->
     iter_val (Z.to_nat (Iterations demo_sloth)) (TauInverse_val 7) 4
     = w0_val demo_sloth 7 (Some (list_byte_of_string "a"))) /\
    (r = (true, None) \/
     r = (false,
          Some "verification failed: reversed witness does not match initial value"%string)).
Proof.
  assert (Hnil : expected_digest demo_sloth 4 <> None).
  { unfold expected_digest. change (HashFunc demo_sloth tt) with (SHA256.New tt).
    rewrite SHA256_Sum_nonnil. discriminate. }
  split; [apply demo_constructed_later|].
  split; [reflexivity|]. split; [reflexivity|]. split; [lia|].
  split; [exact Hnil|]. split; [reflexivity|].
  apply (Verify_accepts_iff demo_sloth (demo_heap ++ [4]) 7
           (list_byte_of_string "a") (expected_digest demo_sloth 4) 8%nat 4).
  - apply demo_constructed_later.
  - reflexivity.
  - reflexivity.
  - lia.
  - exact Hnil.
  - reflexivity.
Defined.

Lemma digest_val_expected s input v :
  HashFunc s = SHA256.New ->
  digest_val s input v = Some (SHA256.sum256 (Bytes_val v)) /\
  expected_digest s v = Some (SHA256.sum256 (Bytes_val v)).
Proof.
  intros HSha. unfold digest_val, expected_digest. rewrite HSha.
  split; [|apply SHA256_Sum_nonnil].
  change (Hash_Reset (Hash_Write (SHA256.New tt) input)) with (SHA256.New tt).
  apply SHA256_Sum_nonnil.
Qed.

Lemma Verify_val_own_digest s p i v :
  HashFunc s = SHA256.New -> 0 <= v < p ->
  Verify_val s p (Some i) (expected_digest s v) (Some v)
  = if iter_val (Z.to_nat (Iterations s)) (TauInverse_val p) v
       =? w0_val s p (Some i)
    then (true, None)
    else (false,
          Some "verification failed: reversed witness does not match initial value"%string).
Proof.
  intros HSha Hv.
  destruct (digest_val_expected s (Some i) v HSha) as [_ He].
  unfold Verify_val. rewrite He.
  destruct (Z.leb_spec p v); [lia|]. destruct (Z.ltb_spec v 0); [lia|].
  change (false || false) with false. cbv iota.
  assert (Heq : bytes_Equal (Some (SHA256.sum256 (Bytes_val v)))
                            (Some (SHA256.sum256 (Bytes_val v))) = true).
  { unfold bytes_Equal. apply list_byte_eqb_spec. reflexivity. }
  rewrite Heq. reflexivity.
Qed.

(** X17. On every instance [New] returns, the digest [Compute] returns is
    the SHA-256 hash of the big-endian bytes of the witness it returns: it
    is not nil, 32 bytes long, and depends on the input through the witness
    only. *)
Theorem Compute_digest_of_witness s h input :
  constructed s h ->
  exists d (w : ptr) h' v,
    Compute s input h = Some ((Some d, w, None), h') /\
    h' !! w = Some v /\
    d = SHA256.sum256 (Bytes_val v) /\ length d = 32%nat.
Proof.
  intros Hc.
  destruct (constructed_valid s h Hc) as (p & Hr & [Hp1 _] & Hmod & _ & HSha).
  pose proof (mod_4_3_odd p Hmod) as Hodd.
  destruct (wp_run _ _ _ (Compute_spec s p h input Hr ltac:(lia) Hodd))
    as (r & h' & HC & _ & w & -> & Hw).
  destruct (digest_val_expected s input (witness_val s p input) HSha)
    as [Hdig _].
  rewrite Hdig in HC.
  exists (SHA256.sum256 (Bytes_val (witness_val s p input))), w, h',
         (witness_val s p input).
  split; [exact HC|]. split; [exact Hw|]. split; [reflexivity|].
  apply sum256_length.
Qed.

Lemma Compute_digest_of_witness_witness :
  constructed demo_sloth demo_heap /\
  exists d (w : ptr) h' v,
    Compute demo_sloth None demo_heap = Some ((Some d, w, None), h') /\
    h' !! w = Some v /\
    d = SHA256.sum256 (Bytes_val v) /\ length d = 32%nat.
Proof.
  split; [exact demo_constructed|].
  apply (Compute_digest_of_witness demo_sloth demo_heap None).
  exact demo_constructed.
Defined.

(** X10. On every instance [New] returns and every non-nil input,
    [Compute] followed by [Verify] on its output never ends in a usage,
    range or hash-mismatch error: [Verify] answers [(true, nil)], or
    [(false, "verification failed ...")], and in the second case, unless the
    hash of the input is 0 modulo [p], the inverse steps have led to the
    negation [p - w0] of the seed [w0]. *)
Theorem Compute_then_Verify_outcome s h p i :
  constructed s h -> h !! P s = Some p ->
  (result_of (Compute_then_Verify s (Some i)) h
   = Some (witness_val s p (Some i), (true, None)) /\
   iter_val (Z.to_nat (Iterations s)) (TauInverse_val p)
            (witness_val s p (Some i))
   = w0_val s p (Some i)) \/
  (result_of (Compute_then_Verify s (Some i)) h
   = Some (witness_val s p (Some i),
           (false,
            Some "verification failed: reversed witness does not match initial value"%string)) /\
   (w0_val s p (Some i) <> 0 ->
    iter_val (Z.to_nat (Iterations s)) (TauInverse_val p)
             (witness_val s p (Some i))
    = p - w0_val s p (Some i))).
Proof.
  intros Hc HP.
  destruct (constructed_facts s h p Hc HP)
    as (Hr & Hprime & Hmod & Hp3 & Hodd & Hit & HSha).
  pose proof (witness_val_field s p (Some i) Hprime Hmod Hit) as Hwf.
  destruct (digest_val_expected s (Some i) (witness_val s p (Some i)) HSha)
    as [Hdig Hexp].
  assert (Hrun : wp (Compute_then_Verify s (Some i)) h (fun r _ =>
            r = (witness_val s p (Some i),
                 Verify_val s p (Some i)
                   (expected_digest s (witness_val s p (Some i)))
                   (Some (witness_val s p (Some i)))))).
  { unfold Compute_then_Verify. apply wp_bind.
    eapply wp_mono; [apply (Compute_spec s p h (Some i) Hr ltac:(lia) Hodd)|].
    intros r h1 (Hpre & w & -> & Hw). cbv beta iota.
    apply wp_bind, (wp_load _ _ (witness_val s p (Some i))); [exact Hw|].
    apply wp_bind.
    eapply wp_mono;
      [apply (Verify_refines s p h1 (Some i) _ w (witness_val s p (Some i)));
         [eapply ready_mono; eassumption | lia | exact HSha | exact Hw]|].
    intros r h2 [_ ->]. cbv beta. apply wp_ret.
    rewrite Hdig, Hexp. reflexivity. }
  apply wp_run in Hrun as (r & h' & Hrun & ->).
  unfold result_of. rewrite Hrun.
  rewrite (Verify_val_own_digest s p i (witness_val s p (Some i)) HSha
             ltac:(lia)).
  destruct (Z.eqb_spec
              (iter_val (Z.to_nat (Iterations s)) (TauInverse_val p)
                        (witness_val s p (Some i)))
              (w0_val s p (Some i))) as [Heq|Hne].
  - left. split; [reflexivity | exact Heq].
  - right. split; [reflexivity|]. intros Hnz.
    pose proof (w0_val_range s p (Some i) ltac:(lia)) as Hw0.
    destruct (iter_TauInverse_Tau_val p (Z.to_nat (Iterations s)) Hprime Hmod
                (w0_val s p (Some i)) ltac:(lia)) as [H|H].
    + exfalso. apply Hne. exact H.
    + exact H.
Qed.

Lemma Compute_then_Verify_outcome_witness :
  constructed demo_sloth demo_heap /\
  demo_heap !! P demo_sloth = Some 7 /\
  ((result_of (Compute_then_Verify demo_sloth (Some (list_byte_of_string "d")))
              demo_heap
    = Some (witness_val demo_sloth 7 (Some (list_byte_of_string "d")),
            (true, None)) /\
    iter_val (Z.to_nat (Iterations demo_sloth)) (TauInverse_val 7)
             (witness_val demo_sloth 7 (Some (list_byte_of_string "d")))
    = w0_val demo_sloth 7 (Some (list_byte_of_string "d"))) \/
   (result_of (Compute_then_Verify demo_sloth (Some (list_byte_of_string "d")))
              demo_heap
    = Some (witness_val demo_sloth 7 (Some (list_byte_of_string "d")),
            (false,
             Some "verification failed: reversed witness does not match initial value"%string)) /\
    (w0_val demo_sloth 7 (Some (list_byte_of_string "d")) <> 0 ->
     iter_val (Z.to_nat (Iterations demo_sloth)) (TauInverse_val 7)
              (witness_val demo_sloth 7 (Some (list_byte_of_string "d")))
     = 7 - w0_val demo_sloth 7 (Some (list_byte_of_string "d"))))).
Proof.
  split; [exact demo_constructed|]. split; [reflexivity|].
  apply (Compute_then_Verify_outcome demo_sloth demo_heap 7
           (list_byte_of_string "d")).
  - exact demo_constructed.
  - reflexivity.
Defined.

(** X11. On every instance [New] returns: if [Verify] accepts a witness [v]
    in [1, p-1] presented with its own digest, it also accepts the
    negation [p - v] presented with its own digest, for the same input.
    Since [p] is odd, one of the two is odd, which [Compute] never
    returns. *)
Theorem Verify_accepts_negated_witness s h p i (w w' : ptr) v :
  constructed s h -> h !! P s = Some p ->
  h !! w = Some v -> h !! w' = Some (p - v) -> 1 <= v < p ->
  result_of (Verify s (Some i) (expected_digest s v) (Some w)) h
  = Some (true, None) ->
  result_of (Verify s (Some i) (expected_digest s (p - v)) (Some w')) h
  = Some (true, None).
Proof.
  intros Hc HP Hw Hw' Hv Hacc.
  destruct (constructed_facts s h p Hc HP)
    as (Hr & Hprime & Hmod & Hp3 & Hodd & Hit & HSha).
  destruct (wp_run _ _ _
              (Verify_refines s p h (Some i) (expected_digest s v) w v
                 Hr ltac:(lia) HSha Hw)) as (r & h1 & HV & _ & ->).
  destruct (wp_run _ _ _
              (Verify_refines s p h (Some i) (expected_digest s (p - v)) w'
                 (p - v) Hr ltac:(lia) HSha Hw')) as (r' & h2 & HV' & _ & ->).
  unfold result_of in *. rewrite HV in Hacc. rewrite HV'.
  rewrite (Verify_val_own_digest s p i v HSha ltac:(lia)) in Hacc.
  rewrite (Verify_val_own_digest s p i (p - v) HSha ltac:(lia)).
  destruct (Z.to_nat (Iterations s)) as [|n] eqn:Hn; [lia|].
  change (iter_val (S n) (TauInverse_val p) (p - v))
    with (iter_val n (TauInverse_val p) (TauInverse_val p (p - v))).
  rewrite TauInverse_val_opp by lia.
  exact Hacc.
Qed.

Lemma Verify_accepts_negated_witness_witness :
  constructed demo_sloth (demo_heap ++ [4; 3]) /\
  (demo_heap ++ [4; 3]) !! P demo_sloth = Some 7 /\
  (demo_heap ++ [4; 3]) !! 8%nat = Some 4 /\
  (demo_heap ++ [4; 3]) !! 9%nat = Some (7 - 4) /\
  1 <= 4 < 7 /\
  result_of (Verify demo_sloth (Some (list_byte_of_string "a"))
               (expected_digest demo_sloth 4) (Some 8%nat))
            (demo_heap ++ [4; 3])
  = Some (true, None) /\
  result_of (Verify demo_sloth (Some (list_byte_of_string "a"))
               (expected_digest demo_sloth (7 - 4)) (Some 9%nat))
            (demo_heap ++ [4; 3])
  = Some (true, None).
Proof.
  assert (Hacc : result_of (Verify demo_sloth (Some (list_byte_of_string "a"))
                              (expected_digest demo_sloth 4) (Some 8%nat))
                           (demo_heap ++ [4; 3])
                 = Some (true, None)) by (vm_compute; reflexivity).
  split; [apply demo_constructed_later|].
  split; [reflexivity|]. split; [reflexivity|]. split; [reflexivity|].
  split; [lia|]. split; [exact Hacc|].
  apply (Verify_accepts_negated_witness demo_sloth (demo_heap ++ [4; 3]) 7
           (list_byte_of_string "a") 8%nat 9%nat 4).
  - apply demo_constructed_later.
  - reflexivity.
  - reflexivity.
  - reflexivity.
  - lia.
  - exact Hacc.
Defined.

(** ** Properties of New and of the prime generator *)

(** X13. [New] reports the first check that fails, in the order iteration
    count, primality, congruence: a non-positive count is reported
    whatever [p] is, a composite [p] is reported as not prime even when it
    is not 3 modulo 4.  The first two rejections leave the store as it was;
    the third leaves one scratch integer, [p mod 4], behind. *)
Theorem New_first_error h (pp : ptr) p it :
  globals `prefix_of` h -> h !! pp = Some p ->
  (it <= 0 ->
   New pp it h
   = Some ((None, Some "iterations must be positive"%string), h)) /\
  (0 < it -> ~ Z.prime p ->
   New pp it h
   = Some ((None, Some "p is not a prime number"%string), h)) /\
  (0 < it -> Z.prime p -> p mod 4 <> 3 ->
   New pp it h
   = Some ((None, Some "p must be congruent to 3 (mod 4)"%string),
           h ++ [p mod 4])).
Proof.
  intros Hg Hpp.
  assert (H3 : h !! bigThree = Some 3) by (eapply globals_lookup; [exact Hg | reflexivity]).
  assert (H4 : h !! bigFour = Some 4) by (eapply globals_lookup; [exact Hg | reflexivity]).
  repeat apply conj.
  - intros Hit. unfold New.
    destruct (Z.leb_spec it 0); [reflexivity | lia].
  - intros Hit Hnp. apply wp_exact. unfold New.
    destruct (Z.leb_spec it 0); [lia|].
    apply wp_bind, (wp_Int_ProbablyPrime _ _ _ p); [exact Hpp|].
    apply is_prime_false in Hnp. rewrite Hnp.
    apply wp_ret. split; reflexivity.
  - intros Hit Hprime Hmod. apply wp_exact. unfold New.
    destruct (Z.leb_spec it 0); [lia|].
    apply wp_bind, (wp_Int_ProbablyPrime _ _ _ p); [exact Hpp|].
    apply is_prime_spec in Hprime. rewrite Hprime.
    change (negb true) with false. cbv iota.
    apply wp_bind, wp_new.
    apply wp_bind.
    eapply wp_Int_Mod_last; [heap_lookup | heap_lookup | lia |].
    apply wp_bind, (wp_Int_Cmp _ _ _ (p mod Z.abs 4) 3); [heap_lookup | heap_lookup |].
    change (Z.abs 4) with 4.
    destruct (Z.compare_spec (p mod 4) 3) as [Heq|Hlt|Hgt]; [contradiction | |];
      apply wp_ret; split; reflexivity.
Qed.

Lemma New_first_error_witness :
  globals `prefix_of` globals ++ [9] /\
  (globals ++ [9]) !! 5%nat = Some 9 /\
  (100 <= 0 ->
   New 5%nat 100 (globals ++ [9])
   = Some ((None, Some "iterations must be positive"%string), globals ++ [9])) /\
  (0 < 100 -> ~ Z.prime 9 ->
   New 5%nat 100 (globals ++ [9])
   = Some ((None, Some "p is not a prime number"%string), globals ++ [9])) /\
  (0 < 100 -> Z.prime 9 -> 9 mod 4 <> 3 ->
   New 5%nat 100 (globals ++ [9])
   = Some ((None, Some "p must be congruent to 3 (mod 4)"%string),
           (globals ++ [9]) ++ [9 mod 4])).
Proof.
  split; [apply prefix_app_r; reflexivity|]. split; [reflexivity|].
  apply (New_first_error (globals ++ [9]) 5%nat 9 100).
  - apply prefix_app_r. reflexivity.
  - reflexivity.
Defined.

Section GeneratorMore.

Variable rng : Type.
Variable rand_Prime : rng -> Z -> (Z + string) * rng.

Lemma GenerateSlothPrime_frame bits fuel :
  forall r h res h',
    globals `prefix_of` h ->
    GenerateSlothPrime rng rand_Prime fuel bits r h = Some (res, h') ->
    h `prefix_of` h'.
Proof.
  induction fuel as [|fuel IH]; intros r h res h' Hg Hrun.
  - injection Hrun as <- <-. reflexivity.
  - destruct (rand_Prime r bits) as [[v|err] r1] eqn:Hdraw.
    + rewrite (GenerateSlothPrime_round rng rand_Prime fuel bits r h v r1 Hg Hdraw)
        in Hrun.
      destruct (v mod 4 =? 3).
      * injection Hrun as <- <-. apply prefix_app_r. reflexivity.
      * apply IH in Hrun; [|apply prefix_app_r; exact Hg].
        etransitivity; [|exact Hrun]. apply prefix_app_r. reflexivity.
    + simpl in Hrun. rewrite Hdraw in Hrun. injection Hrun as <- <-.
      reflexivity.
Qed.

(** The loop discards the draws that do not stop it and answers with the
    first one that does. *)
Lemma GenerateSlothPrime_first_stop bits n :
  forall fuel r h res r',
    globals `prefix_of` h ->
    (forall k, (k < n)%nat ->
               stops rng rand_Prime bits (draws rng rand_Prime k bits r) = false) ->
    stops rng rand_Prime bits (draws rng rand_Prime n bits r) = true ->
    rand_Prime (draws rng rand_Prime n bits r) bits = (res, r') ->
    (n < fuel)%nat ->
    exists out h',
      GenerateSlothPrime rng rand_Prime fuel bits r h
      = Some (Some (out, r'), h') /\
      match res with
      | inl v => exists pr : ptr, out = (Some pr, None) /\ h' !! pr = Some v
      | inr err =>
          out = (None,
                 Some ("failed to generate candidate prime: " ++ err)%string)
      end.
Proof.
  induction n as [|n IH]; intros fuel r h res r' Hg Hskip Hstop Hdraw Hfuel;
    (destruct fuel as [|fuel]; [lia|]).
  - simpl in Hstop, Hdraw. unfold stops in Hstop. rewrite Hdraw in Hstop.
    destruct res as [v|err]; simpl in Hstop.
    + rewrite (GenerateSlothPrime_round rng rand_Prime fuel bits r h v r' Hg Hdraw),
        Hstop.
      eexists _, _. split; [reflexivity|]. exists (length h).
      split; [reflexivity|].
      apply (list_lookup_middle h [v mod 4] v). reflexivity.
    + simpl. rewrite Hdraw. eexists _, _. split; reflexivity.
  - pose proof (Hskip 0%nat ltac:(lia)) as H0. simpl in H0.
    unfold stops in H0.
    destruct (rand_Prime r bits) as [[v0|err0] r1] eqn:Hdraw0; simpl in H0;
      [|discriminate].
    rewrite (GenerateSlothPrime_round rng rand_Prime fuel bits r h v0 r1 Hg Hdraw0),
      H0.
    apply IH.
    + apply prefix_app_r. exact Hg.
    + intros k Hk. specialize (Hskip (S k) ltac:(lia)).
      simpl in Hskip. rewrite Hdraw0 in Hskip. exact Hskip.
    + simpl in Hstop. rewrite Hdraw0 in Hstop. exact Hstop.
    + simpl in Hdraw. rewrite Hdraw0 in Hdraw. exact Hdraw.
    + lia.
Qed.

End GeneratorMore.

(** X14. [GenerateSlothPrime] returns the first candidate that is 3 modulo
    4: when the draws before the [n]-th are values that are not 3 modulo 4
    and the [n]-th draw is a value [v] that is, the result is a pointer to
    [v], with no error, and the random source is left in the state after
    that draw. *)
Theorem GenerateSlothPrime_first_match (rng : Type)
    (rand_Prime : rng -> Z -> (Z + string) * rng)
    bits (n fuel : nat) r h v r' :
  globals `prefix_of` h ->
  (forall k, (k < n)%nat ->
             stops rng rand_Prime bits (draws rng rand_Prime k bits r) = false) ->
  rand_Prime (draws rng rand_Prime n bits r) bits = (inl v, r') ->
  v mod 4 = 3 -> (n < fuel)%nat ->
  exists (pr : ptr) h',
    GenerateSlothPrime rng rand_Prime fuel bits r h
    = Some (Some ((Some pr, None), r'), h') /\
    h' !! pr = Some v.
Proof.
  intros Hg Hskip Hdraw Hmod Hfuel.
  assert (Hstop : stops rng rand_Prime bits (draws rng rand_Prime n bits r) = true).
  { unfold stops. rewrite Hdraw. simpl. apply Z.eqb_eq, Hmod. }
  destruct (GenerateSlothPrime_first_stop rng rand_Prime bits n fuel r h
              (inl v) r' Hg Hskip Hstop Hdraw Hfuel)
    as (out & h' & Hrun & pr & -> & Hpr).
  exists pr, h'. split; assumption.
Qed.

Lemma GenerateSlothPrime_first_match_witness :
  globals `prefix_of` globals /\
  (forall k, (k < 1)%nat ->
             stops bool demo_rand_Prime 4 (draws bool demo_rand_Prime k 4 true)
             = false) /\
  demo_rand_Prime (draws bool demo_rand_Prime 1 4 true) 4 = (inl 11, false) /\
  11 mod 4 = 3 /\ (1 < 2)%nat /\
  exists (pr : ptr) h',
    GenerateSlothPrime bool demo_rand_Prime 2 4 true globals
    = Some (Some ((Some pr, None), false), h') /\
    h' !! pr = Some 11.
Proof.
  assert (Hskip : forall k, (k < 1)%nat ->
            stops bool demo_rand_Prime 4 (draws bool demo_rand_Prime k 4 true)
            = false).
  { intros k Hk. assert (k = 0%nat) as -> by lia. reflexivity. }
  split; [reflexivity|]. split; [exact Hskip|]. split; [reflexivity|].
  split; [reflexivity|]. split; [lia|].
  apply (GenerateSlothPrime_first_match bool demo_rand_Prime 4 1 2 true
           globals 11 false).
  - reflexivity.
  - exact Hskip.
  - reflexivity.
  - reflexivity.
  - lia.
Defined.

(** X15. [GenerateSlothPrime] passes a failure of the random-prime
    capability on: when the draws before the [n]-th are values that are not
    3 modulo 4 and the [n]-th draw fails with [err], the result is no
    prime and the error ["failed to generate candidate prime: "] followed
    by [err]. *)
Theorem GenerateSlothPrime_error (rng : Type)
    (rand_Prime : rng -> Z -> (Z + string) * rng)
    bits (n fuel : nat) r h err r' :
  globals `prefix_of` h ->
  (forall k, (k < n)%nat ->
             stops rng rand_Prime bits (draws rng rand_Prime k bits r) = false) ->
  rand_Prime (draws rng rand_Prime n bits r) bits = (inr err, r') ->
  (n < fuel)%nat ->
  exists h',
    GenerateSlothPrime rng rand_Prime fuel bits r h
    = Some (Some ((None,
                   Some ("failed to generate candidate prime: " ++ err)%string),
                  r'), h').
Proof.
  intros Hg Hskip Hdraw Hfuel.
  assert (Hstop : stops rng rand_Prime bits (draws rng rand_Prime n bits r) = true).
  { unfold stops. rewrite Hdraw. reflexivity. }
  destruct (GenerateSlothPrime_first_stop rng rand_Prime bits n fuel r h
              (inr err) r' Hg Hskip Hstop Hdraw Hfuel)
    as (out & h' & Hrun & ->).
  exists h'. exact Hrun.
Qed.

Lemma GenerateSlothPrime_error_witness :
  globals `prefix_of` globals /\
  (forall k, (k < 1)%nat ->
             stops bool demo_rand_failing 4
                   (draws bool demo_rand_failing k 4 true) = false) /\
  demo_rand_failing (draws bool demo_rand_failing 1 4 true) 4
  = (inr "no entropy"%string, false) /\
  (1 < 2)%nat /\
  exists h',
    GenerateSlothPrime bool demo_rand_failing 2 4 true globals
    = Some (Some ((None,
                   Some ("failed to generate candidate prime: " ++ "no entropy")%string),
                  false), h').
Proof.
  assert (Hskip : forall k, (k < 1)%nat ->
            stops bool demo_rand_failing 4
                  (draws bool demo_rand_failing k 4 true) = false).
  { intros k Hk. assert (k = 0%nat) as -> by lia. reflexivity. }
  split; [reflexivity|]. split; [exact Hskip|]. split; [reflexivity|].
  split; [lia|].
  apply (GenerateSlothPrime_error bool demo_rand_failing 4 1 2 true globals
           "no entropy"%string false).
  - reflexivity.
  - exact Hskip.
  - reflexivity.
  - lia.
Defined.

(** X16. Whenever the random-prime capability hands back primes, the prime
    [GenerateSlothPrime] returns is accepted by [New] with any positive
    iteration count: the two calls in a row, as the driver and the tests
    make them, end with an instance and no error. *)
Theorem Generate_then_New_succeeds (rng : Type)
    (rand_Prime : rng -> Z -> (Z + string) * rng)
    bits fuel r it h n :
  (forall r0 v r1, rand_Prime r0 bits = (inl v, r1) -> Z.prime v) ->
  globals `prefix_of` h -> 0 < it ->
  result_of (Generate_then_New rng rand_Prime fuel bits r it) h
  = Some (Some n) ->
  exists s, n = (Some s, None) /\ Iterations s = it.
Proof.
  intros Horacle Hg Hit Hrun.
  unfold result_of, Generate_then_New, bind in Hrun.
  destruct (GenerateSlothPrime rng rand_Prime fuel bits r h)
    as [[g h1]|] eqn:HG; [|discriminate].
  destruct g as [[[[pr|] [e|]] r1]|]; try discriminate.
  pose proof (GenerateSlothPrime_frame rng rand_Prime bits fuel r h _ h1 Hg HG)
    as Hpre.
  assert (Hsound : exists v, h1 !! pr = Some v /\ Z.prime v /\ v mod 4 = 3).
  { clear Hrun Hpre. revert r h Hg HG.
    induction fuel as [|fuel IH]; intros r h Hg HG; [discriminate|].
    destruct (rand_Prime r bits) as [[v|err] r2] eqn:Hdraw.
    - rewrite (GenerateSlothPrime_round rng rand_Prime fuel bits r h v r2 Hg Hdraw)
        in HG.
      destruct (Z.eqb_spec (v mod 4) 3) as [Hmod|Hmod].
      + injection HG as <- <- <-. exists v.
        split; [apply (list_lookup_middle h [v mod 4] v); reflexivity|].
        split; [eapply Horacle; exact Hdraw | exact Hmod].
      + apply (IH r2 (h ++ [v; v mod 4])); [apply prefix_app_r; exact Hg | exact HG].
    - simpl in HG. rewrite Hdraw in HG. discriminate. }
  destruct Hsound as (v & Hpr & Hprime & Hmod).
  assert (Hg1 : globals `prefix_of` h1) by (etransitivity; eassumption).
  pose proof (New_spec h1 pr v it Hg1 Hpr) as HN.
  unfold wp in HN.
  destruct (New pr it h1) as [[n' h2]|] eqn:HNew; [|contradiction].
  destruct HN as [_ HN].
  apply is_prime_spec in Hprime. rewrite Hprime in HN.
  destruct (Z.ltb_spec 0 it); [|lia].
  destruct (Z.eqb_spec (v mod 4) 3); [|contradiction].
  simpl in HN. destruct HN as (e' & -> & _).
  injection Hrun as <-. eexists. split; reflexivity.
Qed.

Lemma Generate_then_New_succeeds_witness :
  (forall r0 v r1, demo_rand_Prime r0 4 = (inl v, r1) -> Z.prime v) /\
  globals `prefix_of` globals /\ 0 < 1000 /\
  result_of (Generate_then_New bool demo_rand_Prime 2 4 true 1000) globals
  = Some (Some (Some (mkSloth 7%nat 1000 SHA256.New 10%nat), None)) /\
  exists s, (Some (mkSloth 7%nat 1000 SHA256.New 10%nat), None)
            = (Some s, @None string) /\
            Iterations s = 1000.
Proof.
  assert (Horacle : forall r0 v r1,
             demo_rand_Prime r0 4 = (inl v, r1) -> Z.prime v).
  { intros [|] v r1 [= <- <-]; apply is_prime_spec; reflexivity. }
  split; [exact Horacle|]. split; [reflexivity|]. split; [lia|].
  split; [reflexivity|].
  apply (Generate_then_New_succeeds bool demo_rand_Prime 4 2 true 1000 globals
           (Some (mkSloth 7%nat 1000 SHA256.New 10%nat), None)).
  - exact Horacle.
  - reflexivity.
  - lia.
  - reflexivity.
Defined.
